(** * Layered storage core (src/layered-storage/core.ts)

    A shallow embedding of [LayeredStorageCore]: the raw store
    layer → segment → key → value, the sorted layer list, the set of known
    segments and the top level cache, with the methods [_getLSData],
    [_updateCache], [get], [has], [set], [delete] and [deleteSegmentData]
    written as explicit state passing over a record of the four fields. *)

From stdpp Require Import gmap strings list sorting.

Module LayeredStorageCore.

(** ** Data model *)

(** A segment is an opaque handle.  [monolithic] is the class field
    [public monolithic = Symbol("Monolithic")]; every other handle is
    [named]. *)
Inductive Segment : Type :=
  | monolithic : Segment
  | named (id : string) : Segment.

#[global] Instance Segment_eq_dec : EqDecision Segment.
Proof. solve_decision. Defined.

#[global] Instance Segment_countable : Countable Segment.
Proof.
  refine (inj_countable'
            (λ s, match s with monolithic => None | named id => Some id end)
            (λ o, match o with None => monolithic | Some id => named id end) _).
  by intros [].
Defined.

(** [const reverseNumeric = (a, b) => b - a] *)
Definition reverseNumeric (a b : Z) : Z := (b - a)%Z.

(** [Array.prototype.sort(compare)]: [a] stays in front of [b] when
    [compare(a, b) <= 0] (the sort is stable). *)
Definition before (compare : Z → Z → Z) : relation Z :=
  λ a b, (compare a b ≤ 0)%Z.

#[global] Instance before_dec compare : RelDecision (before compare).
Proof. intros a b. unfold before. apply _. Defined.

Definition sort (compare : Z → Z → Z) (l : list Z) : list Z :=
  merge_sort (before compare) l.

(** [Set.prototype.add]: a set iterates in insertion order and adding a
    member again does not move it. *)
Definition Set_add {A} `{EqDecision A} (x : A) (s : list A) : list A :=
  if decide (x ∈ s) then s else s ++ [x].

(** [Set.prototype.delete] *)
Definition Set_delete {A} `{EqDecision A} (x : A) (s : list A) : list A :=
  filter (λ y, y ≠ x) s.

Section Core.

Context {Value : Type}.

(** The four private fields of the class.  Layers are numbers (integers
    here), keys are strings. *)
Record Core : Type := mkCore {
  _data : gmap Z (gmap Segment (gmap string Value));
  _layers : list Z;
  _segments : list Segment;
  _topLevelCache : gmap Segment (gmap string Value)
}.

(** The object right after construction: every field is empty. *)
Definition init : Core := mkCore ∅ [] [] ∅.

(** [[...this._data.keys()]]; the enumeration order is irrelevant once the
    keys, which are pairwise distinct, have been sorted ([sort_members]). *)
Definition keys (data : gmap Z (gmap Segment (gmap string Value))) : list Z :=
  (map_to_list data).*1.

(** ** [_getLSData(layer, segment)]

    Returns the key → value map of the pair, creating the layer and the
    segment on demand.  The returned map is the one held in [_data]; the
    callers that write through it use [lsData_set] and [lsData_delete]. *)
Definition _getLSData (layer : Z) (segment : Segment) (st : Core)
  : gmap string Value * Core :=
  (* Get or create the requested layer. *)
  let '(lData, st) :=
    match _data st !! layer with
    | Some lData => (lData, st)
    | None =>
        let data := <[layer := ∅]> (_data st) in
        (∅, mkCore data (sort reverseNumeric (keys data))
                   (_segments st) (_topLevelCache st))
    end in
  (* Get or create the requested segment on the layer. *)
  match lData !! segment with
  | Some lsData => (lsData, st)
  | None =>
      (∅, mkCore (<[layer := <[segment := ∅]> lData]> (_data st))
                 (_layers st)
                 (Set_add segment (_segments st))
                 (_topLevelCache st))
  end.

(** [lsData.set(key, value)] on the map of [(layer, segment)] *)
Definition lsData_set (layer : Z) (segment : Segment) (key : string)
    (value : Value) (st : Core) : Core :=
  mkCore (alter (alter (insert key value) segment) layer (_data st))
         (_layers st) (_segments st) (_topLevelCache st).

(** [lsData.delete(key)] on the map of [(layer, segment)] *)
Definition lsData_delete (layer : Z) (segment : Segment) (key : string)
    (st : Core) : Core :=
  mkCore (alter (alter (base.delete key) segment) layer (_data st))
         (_layers st) (_segments st) (_topLevelCache st).

(** [this._topLevelCache.get(segment) ||
     this._topLevelCache.set(segment, new Map()).get(segment)] *)
Definition sCache_get_or_create (segment : Segment) (st : Core) : Core :=
  match _topLevelCache st !! segment with
  | Some _ => st
  | None =>
      mkCore (_data st) (_layers st) (_segments st)
             (<[segment := ∅]> (_topLevelCache st))
  end.

(** [sCache.delete(key)] *)
Definition sCache_delete (segment : Segment) (key : string) (st : Core) : Core :=
  mkCore (_data st) (_layers st) (_segments st)
         (alter (base.delete key) segment (_topLevelCache st)).

(** [sCache.set(key, value)] *)
Definition sCache_set (segment : Segment) (key : string) (value : Value)
    (st : Core) : Core :=
  mkCore (_data st) (_layers st) (_segments st)
         (alter (insert key value) segment (_topLevelCache st)).

(** ** [_updateCache(key)] *)

(** The inner loop [for (const layer of this._layers)].  Falling out of
    the match with a value is [continue segmentsLoop]. *)
Fixpoint layersLoop (layers : list Z) (segment : Segment) (key : string)
    (st : Core) : Core :=
  match layers with
  | [] => st
  | layer :: layers =>
      (* Check the segmented first and quit if found. *)
      let '(lsData, st) := _getLSData layer segment st in
      match lsData !! key with
      | Some value => sCache_set segment key value st
      | None =>
          (* Check the monolithic and quit if found. *)
          let '(lmData, st) := _getLSData layer monolithic st in
          match lmData !! key with
          | Some value => sCache_set segment key value st
          | None => layersLoop layers segment key st
          end
      end
  end.

(** The body of [segmentsLoop] for one segment. *)
Definition segmentsLoop_body (segment : Segment) (key : string) (st : Core)
  : Core :=
  let st := sCache_get_or_create segment st in
  (* Delete the outdated value. *)
  let st := sCache_delete segment key st in
  (* Search the layers from highest to lowest priority. *)
  layersLoop (_layers st) segment key st.

(** [segmentsLoop: for (const segment of this._segments)].  The set
    iterator is a position [i] in the insertion order; members added by the
    body (through [_getLSData]) are visited too.  [fuel] bounds the number
    of iterations. *)
Fixpoint segmentsLoop (fuel : nat) (i : nat) (key : string) (st : Core)
  : Core :=
  match _segments st !! i with
  | None => st
  | Some segment =>
      match fuel with
      | O => st
      | S fuel => segmentsLoop fuel (S i) key (segmentsLoop_body segment key st)
      end
  end.

(** The body adds at most the monolithic segment to the set, so one more
    iteration than there are members is enough ([segmentsLoop_fuel]). *)
Definition _updateCache (key : string) (st : Core) : Core :=
  segmentsLoop (S (length (_segments st))) 0 key st.

(** ** The public methods *)

Definition get (segment : Segment) (key : string) (st : Core)
  : option Value * Core :=
  let sData :=
    match _topLevelCache st !! segment with
    (* Get the segment if it exists. *)
    | Some sData => Some sData
    (* Fall back to monolithic if nothing was saved into the segment yet. *)
    | None => _topLevelCache st !! monolithic
    end in
  match sData with
  | None => (None, st)
  | Some sData => (sData !! key, st)
  end.

Definition has (segment : Segment) (key : string) (st : Core) : bool * Core :=
  match _topLevelCache st !! segment with
  | None => (false, st)
  | Some sData => (bool_decide (is_Some (sData !! key)), st)
  end.

Definition set (layer : Z) (segment : Segment) (key : string) (value : Value)
    (st : Core) : Core :=
  let '(_, st) := _getLSData layer segment st in
  let st := lsData_set layer segment key value st in
  _updateCache key st.

Definition delete (layer : Z) (segment : Segment) (key : string) (st : Core)
  : Core :=
  let '(_, st) := _getLSData layer segment st in
  let st := lsData_delete layer segment key st in
  _updateCache key st.

Definition deleteSegmentData (segment : Segment) (st : Core) : Core :=
  mkCore (base.delete segment <$> _data st)
         (_layers st)
         (Set_delete segment (_segments st))
         (base.delete segment (_topLevelCache st)).

(** ** Observations of a state *)

(** The raw store entry of [(layer, segment, key)]. *)
Definition rawGet (layer : Z) (segment : Segment) (key : string) (st : Core)
  : option Value :=
  _data st !! layer ≫= λ lData, lData !! segment ≫= λ lsData, lsData !! key.

(** The segment's map on a layer, when the raw store has one. *)
Definition rawSegment (layer : Z) (segment : Segment) (st : Core)
  : option (gmap string Value) :=
  _data st !! layer ≫= λ lData, lData !! segment.

(** The top level cache entry [cache[segment][key]]. *)
Definition cacheGet (segment : Segment) (key : string) (st : Core)
  : option Value :=
  _topLevelCache st !! segment ≫= λ sCache, sCache !! key.

(** Follows the spec's words ("resolve(segment, key)"): iterate the given
    layers in order; at each layer check the segment's own map first, then
    the monolithic segment's map; return the first value found, else the
    result is absent. *)
Fixpoint resolveLayers (layers : list Z) (segment : Segment) (key : string)
    (st : Core) : option Value :=
  match layers with
  | [] => None
  | layer :: layers =>
      match rawGet layer segment key st with
      | Some value => Some value
      | None =>
          match rawGet layer monolithic key st with
          | Some value => Some value
          | None => resolveLayers layers segment key st
          end
      end
  end.

(** Follows the spec's words: resolution recomputed from the raw store
    alone, over its layers in descending priority order. *)
Definition resolve (segment : Segment) (key : string) (st : Core)
  : option Value :=
  resolveLayers (sort reverseNumeric (keys (_data st))) segment key st.

(** What one layer contributes to the resolution of a segment's key: the
    segment's own value, else the monolithic segment's. *)
Definition hit (st : Core) (segment : Segment) (key : string) (layer : Z)
  : option Value :=
  match rawGet layer segment key st with
  | Some value => Some value
  | None => rawGet layer monolithic key st
  end.

(** ** Sequences of core operations *)

Inductive Op : Type :=
  | OpSet (layer : Z) (segment : Segment) (key : string) (value : Value)
  | OpDelete (layer : Z) (segment : Segment) (key : string)
  | OpDeleteSegmentData (segment : Segment).

Definition step (st : Core) (op : Op) : Core :=
  match op with
  | OpSet layer segment key value => set layer segment key value st
  | OpDelete layer segment key => delete layer segment key st
  | OpDeleteSegmentData segment => deleteSegmentData segment st
  end.

(** The state of a fresh store after the operations, first to last. *)
Definition run (ops : list Op) : Core := foldl step init ops.

(** The layer an operation writes to, when it writes to one. *)
Definition op_layer (op : Op) : option Z :=
  match op with
  | OpSet layer _ _ _ | OpDelete layer _ _ => Some layer
  | OpDeleteSegmentData _ => None
  end.

(** ** Well-formed states *)

(** The relation the layer list is kept sorted by: strictly descending. *)
Definition descending : relation Z := λ a b, (b < a)%Z.

(** What every state between two iterations of the loops satisfies. *)
Record wf (st : Core) : Prop := mkWf {
  wf_layers_sorted : StronglySorted descending (_layers st);
  wf_layers_data : ∀ layer, layer ∈ _layers st ↔ is_Some (_data st !! layer);
  wf_segments_nodup : NoDup (_segments st);
  wf_data_segments :
    ∀ layer segment,
      is_Some (rawSegment layer segment st) → segment ∈ _segments st;
  wf_cache_segments :
    ∀ segment, is_Some (_topLevelCache st !! segment) → segment ∈ _segments st
}.

(** A cache in which every entry of a known segment is either the resolved
    value or missing for a key the segment has no value of its own for. *)
Definition settled (st : Core) : Prop :=
  ∀ segment key, segment ∈ _segments st →
    cacheGet segment key st = resolve segment key st ∨
    (cacheGet segment key st = None ∧
     ∀ layer, rawGet layer segment key st = None).

(** What holds in addition once a public method has returned: every known
    segment has its cache map. *)
Definition cached (st : Core) : Prop :=
  ∀ segment, segment ∈ _segments st → is_Some (_topLevelCache st !! segment).

(** The segment an operation names. *)
Definition op_segment (op : Op) : Segment :=
  match op with
  | OpSet _ segment _ _ | OpDelete _ segment _ | OpDeleteSegmentData segment =>
      segment
  end.

(** [st'] has the maps of [st], possibly more (empty ones), and the same
    raw store entries. *)
Definition extends (st st' : Core) : Prop :=
  (∀ layer segment,
     is_Some (rawSegment layer segment st) →
     is_Some (rawSegment layer segment st')) ∧
  (∀ layer segment key,
     rawGet layer segment key st' = rawGet layer segment key st).

(** The maps that the layer loop of [_updateCache] asks [_getLSData] for,
    on its way down the layers for a segment and a key, all exist. *)
Fixpoint walked (layers : list Z) (segment : Segment) (key : string)
    (st : Core) : Prop :=
  match layers with
  | [] => True
  | layer :: layers =>
      is_Some (rawSegment layer segment st) ∧
      (rawGet layer segment key st = None →
       is_Some (rawSegment layer monolithic st) ∧
       (rawGet layer monolithic key st = None →
        walked layers segment key st))
  end.

(** The only member the loops of [_updateCache] can add to the set of
    segments is the monolithic one, at the end. *)
Definition grows (segs segs' : list Segment) : Prop :=
  segs' = segs ∨ ((monolithic ∉ segs) ∧ segs' = segs ++ [monolithic]).

End Core.

Arguments Core : clear implicits.
Arguments Op : clear implicits.

(** ** Stores used as examples *)

(** A key of the monolithic segment is set, then another key of a segment. *)
Definition segment_written_later : list (Op string) :=
  [OpSet 0 monolithic "k" "v"; OpSet 0 (named "S") "k2" "w"].

(** The monolithic segment is cleared while a segment's cache entry still
    holds a value resolved from it. *)
Definition monolithic_cleared : list (Op string) :=
  [OpSet 1 monolithic "k" "m"; OpSet 0 (named "B") "k" "b";
   OpDeleteSegmentData monolithic].

End LayeredStorageCore.

Import LayeredStorageCore.

(** * Validator registration (interface of the store around the core) *)

Module LayeredStorage.

Section Validation.

Context {Value : Type}.

(** Modelled from the spec: a validator function of the validation gate; it
    answers "valid" ([None]) or gives a failure reason. *)
Definition Validator : Type := Value → option string.

(** Modelled from the spec: the error taxonomy, as far as registration is
    concerned. *)
Inductive Error : Type :=
  | DuplicateValidatorRegistration (key : string).

(** Modelled from the spec: the [LayeredStorage] object around the core, as
    far as registration is concerned: the core and the validators
    configured per key. *)
Record Store : Type := mkStore {
  _core : Core Value;
  _validators : gmap string (list Validator)
}.

(** Modelled from the spec: [new LayeredStorage()], nothing stored and no
    validators configured. *)
Definition new : Store := mkStore init ∅.

(** Modelled from the spec: [setValidators] of the [LayeredStorage] class
    (layered-storage.ts); only its test "Setting validators twice" is among
    the sources.  Setting validators for a key a second time without an
    explicit replace directive fails at registration time, before any
    storage interaction; otherwise the validators of the key are set.  The
    result is the error, if any, and the store after the call. *)
Definition setValidators (key : string) (validators : list Validator)
    (replace : bool) (ls : Store) : option Error * Store :=
  if negb replace && bool_decide (is_Some (_validators ls !! key))
  then (Some (DuplicateValidatorRegistration key), ls)
  else (None, mkStore (_core ls) (<[key := validators]> (_validators ls))).

End Validation.

Arguments Store : clear implicits.
Arguments Validator : clear implicits.

End LayeredStorage.

(** * Facts about the embedding *)

Section sorting.

#[local] Instance before_reverseNumeric_trans : Transitive (before reverseNumeric).
Proof. intros a b c. unfold before, reverseNumeric. lia. Qed.

#[local] Instance before_reverseNumeric_total : Total (before reverseNumeric).
Proof. intros a b. unfold before, reverseNumeric. lia. Qed.

#[local] Instance before_reverseNumeric_antisymm :
  AntiSymm (=) (before reverseNumeric).
Proof. intros a b. unfold before, reverseNumeric. lia. Qed.

Lemma sort_Permutation l : sort reverseNumeric l ≡ₚ l.
Proof. apply merge_sort_Permutation. Qed.

Lemma sort_elem_of l x : x ∈ sort reverseNumeric l ↔ x ∈ l.
Proof. by rewrite sort_Permutation. Qed.

Lemma StronglySorted_strict l :
  NoDup l → StronglySorted (before reverseNumeric) l → StronglySorted descending l.
Proof.
  induction 1 as [|x l Hx Hnd IH]; intros Hs; [constructor|].
  apply StronglySorted_inv in Hs as [Hs Hall].
  constructor; [by apply IH|].
  rewrite Forall_forall in Hall |- *. intros y Hy.
  specialize (Hall y Hy). unfold before, reverseNumeric, descending in *.
  assert (x ≠ y) by (intros ->; done). lia.
Qed.

Lemma sort_descending l : NoDup l → StronglySorted descending (sort reverseNumeric l).
Proof.
  intros Hnd. apply StronglySorted_strict.
  - by rewrite sort_Permutation.
  - apply StronglySorted_merge_sort; apply _.
Qed.

Lemma descending_before l :
  StronglySorted descending l → Sorted (before reverseNumeric) l.
Proof.
  intros Hs. apply StronglySorted_Sorted.
  induction Hs as [|x l Hs IH Hall]; constructor; [done|].
  eapply Forall_impl; [exact Hall|].
  intros y. unfold before, reverseNumeric, descending. lia.
Qed.

Lemma descending_NoDup l : StronglySorted descending l → NoDup l.
Proof.
  induction 1 as [|x l Hs IH Hall]; constructor; [|done].
  intros Hx. rewrite Forall_forall in Hall. specialize (Hall x Hx).
  unfold descending in Hall. lia.
Qed.

(** A strictly descending list is the sort of any enumeration of its
    members. *)
Lemma descending_sort l l' :
  StronglySorted descending l → NoDup l' → (∀ x, x ∈ l ↔ x ∈ l') →
  l = sort reverseNumeric l'.
Proof.
  intros Hs Hnd Hel.
  apply (Sorted_unique (before reverseNumeric)).
  - by apply descending_before.
  - apply Sorted_merge_sort; apply _.
  - rewrite sort_Permutation.
    apply NoDup_Permutation; [by apply descending_NoDup|done|done].
Qed.

(** The sort of duplicate-free lists depends on their members only. *)
Lemma sort_members l l' :
  NoDup l → NoDup l' → (∀ x, x ∈ l ↔ x ∈ l') →
  sort reverseNumeric l = sort reverseNumeric l'.
Proof.
  intros Hnd Hnd' Hel. apply descending_sort; [by apply sort_descending|done|].
  intros x. by rewrite sort_elem_of.
Qed.

End sorting.

Section sets.

Context {A : Type} `{EqDecision A}.

Lemma Set_add_elem_of (x y : A) s : y ∈ Set_add x s ↔ y = x ∨ y ∈ s.
Proof.
  unfold Set_add. case_decide.
  - split; [by right|]. by intros [->|].
  - rewrite elem_of_app, list_elem_of_singleton. tauto.
Qed.

Lemma Set_add_NoDup (x : A) s : NoDup s → NoDup (Set_add x s).
Proof.
  intros Hnd. unfold Set_add. case_decide; [done|].
  apply NoDup_app. split_and!; [done| |apply NoDup_singleton].
  intros y Hy ->%list_elem_of_singleton. done.
Qed.

Lemma Set_add_member (x : A) s : x ∈ s → Set_add x s = s.
Proof. intros Hx. unfold Set_add. by rewrite decide_True. Qed.

Lemma Set_delete_elem_of (x y : A) s : y ∈ Set_delete x s ↔ y ∈ s ∧ y ≠ x.
Proof. unfold Set_delete. rewrite list_elem_of_filter. tauto. Qed.

Lemma Set_delete_not_member (x : A) s : x ∉ s → Set_delete x s = s.
Proof.
  intros Hx. unfold Set_delete. induction s as [|y s IH]; [done|].
  rewrite filter_cons. rewrite not_elem_of_cons in Hx. destruct Hx as [Hxy Hx].
  rewrite decide_True by done. by rewrite IH.
Qed.

Lemma Set_delete_NoDup (x : A) s : NoDup s → NoDup (Set_delete x s).
Proof. apply NoDup_filter. Qed.

End sets.

Section getLSData.

Context {Value : Type}.
Implicit Types (st : Core Value) (layer : Z) (segment : Segment) (key : string).

Lemma getLSData_fst layer segment st :
  (_getLSData layer segment st).1 = default ∅ (rawSegment layer segment st).
Proof.
  unfold _getLSData, rawSegment.
  destruct (_data st !! layer) as [lData|]; simpl.
  - by destruct (lData !! segment).
  - by rewrite lookup_empty.
Qed.

Lemma getLSData_data layer segment st :
  _data (_getLSData layer segment st).2 =
  <[layer := <[segment := default ∅ (rawSegment layer segment st)]>
               (default ∅ (_data st !! layer))]> (_data st).
Proof.
  unfold _getLSData, rawSegment.
  destruct (_data st !! layer) as [lData|] eqn:Hl; simpl.
  - destruct (lData !! segment) as [lsData|] eqn:Hs; simpl; [|done].
    rewrite (insert_id lData) by done. by rewrite insert_id.
  - rewrite lookup_empty. simpl. by rewrite insert_insert_eq.
Qed.

Lemma getLSData_cache layer segment st :
  _topLevelCache (_getLSData layer segment st).2 = _topLevelCache st.
Proof.
  unfold _getLSData.
  destruct (_data st !! layer) as [lData|]; simpl.
  - by destruct (lData !! segment).
  - by rewrite lookup_empty.
Qed.

Lemma getLSData_segments layer segment st :
  _segments (_getLSData layer segment st).2 =
  if rawSegment layer segment st is Some _ then _segments st
  else Set_add segment (_segments st).
Proof.
  unfold _getLSData, rawSegment.
  destruct (_data st !! layer) as [lData|]; simpl.
  - by destruct (lData !! segment).
  - by rewrite lookup_empty.
Qed.

Lemma getLSData_layers layer segment st :
  _layers (_getLSData layer segment st).2 =
  if _data st !! layer is Some _ then _layers st
  else sort reverseNumeric (keys (<[layer := ∅]> (_data st))).
Proof.
  unfold _getLSData.
  destruct (_data st !! layer) as [lData|]; simpl.
  - by destruct (lData !! segment).
  - by rewrite lookup_empty.
Qed.

Lemma getLSData_rawSegment layer segment st layer' segment' :
  rawSegment layer' segment' (_getLSData layer segment st).2 =
  if decide (layer' = layer ∧ segment' = segment)
  then Some (default ∅ (rawSegment layer segment st))
  else rawSegment layer' segment' st.
Proof.
  unfold rawSegment at 1. rewrite getLSData_data.
  destruct (decide (layer' = layer)) as [->|Hl].
  - rewrite lookup_insert_eq. simpl.
    destruct (decide (segment' = segment)) as [->|Hs].
    + rewrite lookup_insert_eq. by rewrite decide_True.
    + rewrite lookup_insert_ne by done. rewrite decide_False by tauto.
      unfold rawSegment. by destruct (_data st !! layer).
  - rewrite lookup_insert_ne by done. by rewrite decide_False by tauto.
Qed.

Lemma rawGet_rawSegment layer segment key st :
  rawGet layer segment key st = rawSegment layer segment st ≫= λ m, m !! key.
Proof. unfold rawGet, rawSegment. by destruct (_data st !! layer). Qed.

(** [_getLSData] creates empty maps only: no raw store entry changes. *)
Lemma getLSData_rawGet layer segment st layer' segment' key' :
  rawGet layer' segment' key' (_getLSData layer segment st).2 =
  rawGet layer' segment' key' st.
Proof.
  rewrite !rawGet_rawSegment, getLSData_rawSegment.
  case_decide as H; [|done]. destruct H as [-> ->].
  by destruct (rawSegment layer segment st).
Qed.

Lemma getLSData_lookup layer segment key st :
  (_getLSData layer segment st).1 !! key = rawGet layer segment key st.
Proof.
  rewrite getLSData_fst, rawGet_rawSegment.
  by destruct (rawSegment layer segment st).
Qed.

Lemma getLSData_layer_is_Some layer segment st layer' :
  is_Some (_data (_getLSData layer segment st).2 !! layer') ↔
  layer' = layer ∨ is_Some (_data st !! layer').
Proof.
  rewrite getLSData_data. rewrite lookup_insert_is_Some. 
  destruct (decide (layer = layer')); naive_solver.
Qed.

Lemma keys_NoDup (data : gmap Z (gmap Segment (gmap string Value))) :
  NoDup (keys data).
Proof. apply NoDup_fst_map_to_list. Qed.

Lemma keys_elem_of (data : gmap Z (gmap Segment (gmap string Value))) layer :
  layer ∈ keys data ↔ is_Some (data !! layer).
Proof.
  unfold keys. rewrite list_elem_of_fmap. split.
  - intros [[l m] [-> Hm%elem_of_map_to_list]]. by exists m.
  - intros [m Hm]. exists (layer, m). by rewrite elem_of_map_to_list.
Qed.

Lemma getLSData_wf layer segment st : wf st → wf (_getLSData layer segment st).2.
Proof.
  intros [Hsorted Hlayers Hnd Hdata Hcache]. split.
  - rewrite getLSData_layers. destruct (_data st !! layer); [done|].
    apply sort_descending, keys_NoDup.
  - intros layer'. rewrite getLSData_layer_is_Some, getLSData_layers.
    destruct (_data st !! layer) as [lData|] eqn:Hl.
    + rewrite Hlayers. split; [by right|]. intros [->|]; [by exists lData|done].
    + rewrite sort_elem_of, keys_elem_of, lookup_insert_is_Some.
      destruct (decide (layer = layer')); naive_solver.
  - rewrite getLSData_segments. destruct (rawSegment layer segment st); [done|].
    by apply Set_add_NoDup.
  - intros layer' segment'. rewrite getLSData_rawSegment, getLSData_segments.
    case_decide as H.
    + destruct H as [-> ->]. intros _.
      destruct (rawSegment layer segment st) eqn:Hs.
      * apply (Hdata layer). by rewrite Hs.
      * apply Set_add_elem_of. by left.
    + intros Hs%Hdata. destruct (rawSegment layer segment st); [done|].
      apply Set_add_elem_of. by right.
  - intros segment'. rewrite getLSData_cache, getLSData_segments.
    intros Hs%Hcache. destruct (rawSegment layer segment st); [done|].
    apply Set_add_elem_of. by right.
Qed.

End getLSData.

Section updateCache.

Context {Value : Type}.
Implicit Types (st : Core Value) (layer : Z) (segment : Segment) (key : string).

Lemma grows_refl segs : grows segs segs.
Proof. by left. Qed.

Lemma grows_trans segs1 segs2 segs3 :
  grows segs1 segs2 → grows segs2 segs3 → grows segs1 segs3.
Proof.
  intros [->|[Hm ->]] [->|[Hm' ->]]; [by left|by right|by right|].
  destruct Hm'. apply elem_of_app. right. by apply list_elem_of_singleton.
Qed.

Lemma grows_elem_of segs segs' segment :
  grows segs segs' → segment ∈ segs → segment ∈ segs'.
Proof. intros [->|[_ ->]] Hs; [done|]. apply elem_of_app. by left. Qed.

Lemma grows_lookup segs segs' i segment :
  grows segs segs' → segs !! i = Some segment → segs' !! i = Some segment.
Proof.
  intros [->|[_ ->]] Hs; [done|]. rewrite lookup_app_l; [done|].
  by eapply lookup_lt_Some.
Qed.

Lemma grows_Set_add_monolithic segs : grows segs (Set_add monolithic segs).
Proof. unfold Set_add. case_decide; [by left|by right]. Qed.

Lemma getLSData_grows layer segment st :
  segment ∈ _segments st ∨ segment = monolithic →
  grows (_segments st) (_segments (_getLSData layer segment st).2).
Proof.
  intros Hs. rewrite getLSData_segments.
  destruct (rawSegment layer segment st); [apply grows_refl|].
  destruct Hs as [Hs| ->].
  - rewrite Set_add_member by done. apply grows_refl.
  - apply grows_Set_add_monolithic.
Qed.

Lemma resolveLayers_ext layers segment key st st' :
  (∀ layer segment key,
     rawGet layer segment key st' = rawGet layer segment key st) →
  resolveLayers layers segment key st' = resolveLayers layers segment key st.
Proof.
  intros Hraw. induction layers as [|layer layers IH]; [done|].
  simpl. by rewrite !Hraw, IH.
Qed.

(** One iteration of the layer loop, with the maps that [_getLSData]
    returns read off the raw store. *)
Lemma layersLoop_cons layer layers segment key st :
  layersLoop (layer :: layers) segment key st =
  let st1 := (_getLSData layer segment st).2 in
  match rawGet layer segment key st with
  | Some value => sCache_set segment key value st1
  | None =>
      let st2 := (_getLSData layer monolithic st1).2 in
      match rawGet layer monolithic key st with
      | Some value => sCache_set segment key value st2
      | None => layersLoop layers segment key st2
      end
  end.
Proof.
  simpl.
  pose proof (getLSData_lookup layer segment key st) as H1.
  pose proof (getLSData_rawGet layer segment st layer monolithic key) as H3.
  destruct (_getLSData layer segment st) as [lsData st1]. simpl in *.
  rewrite H1. destruct (rawGet layer segment key st); [done|].
  pose proof (getLSData_lookup layer monolithic key st1) as H2.
  destruct (_getLSData layer monolithic st1) as [lmData st2]. simpl in *.
  by rewrite H2, H3.
Qed.

Lemma sCache_set_rawGet segment key value st layer' segment' key' :
  rawGet layer' segment' key' (sCache_set segment key value st) =
  rawGet layer' segment' key' st.
Proof. done. Qed.

Lemma layersLoop_rawGet layers segment key st layer' segment' key' :
  rawGet layer' segment' key' (layersLoop layers segment key st) =
  rawGet layer' segment' key' st.
Proof.
  revert st. induction layers as [|layer layers IH]; intros st; [done|].
  rewrite layersLoop_cons. simpl.
  destruct (rawGet layer segment key st).
  { by rewrite sCache_set_rawGet, getLSData_rawGet. }
  destruct (rawGet layer monolithic key st).
  { by rewrite sCache_set_rawGet, !getLSData_rawGet. }
  by rewrite IH, !getLSData_rawGet.
Qed.

Lemma sCache_set_wf segment key value st :
  wf st → wf (sCache_set segment key value st).
Proof.
  intros [Hsorted Hlayers Hnd Hdata Hcache]. split; try done.
  intros segment'. simpl. rewrite lookup_alter_is_Some. apply Hcache.
Qed.

Lemma layersLoop_wf layers segment key st :
  wf st → wf (layersLoop layers segment key st).
Proof.
  revert st. induction layers as [|layer layers IH]; intros st Hwf; [done|].
  rewrite layersLoop_cons. simpl.
  destruct (rawGet layer segment key st).
  { by apply sCache_set_wf, getLSData_wf. }
  destruct (rawGet layer monolithic key st).
  { by apply sCache_set_wf, getLSData_wf, getLSData_wf. }
  by apply IH, getLSData_wf, getLSData_wf.
Qed.

Lemma layersLoop_grows layers segment key st :
  segment ∈ _segments st →
  grows (_segments st) (_segments (layersLoop layers segment key st)).
Proof.
  revert st. induction layers as [|layer layers IH]; intros st Hs;
    [apply grows_refl|].
  rewrite layersLoop_cons. simpl.
  assert (grows (_segments st) (_segments (_getLSData layer segment st).2)) as H1
    by (apply getLSData_grows; by left).
  destruct (rawGet layer segment key st); [done|].
  assert (grows (_segments st)
            (_segments (_getLSData layer monolithic (_getLSData layer segment st).2).2))
    as H2 by (eapply grows_trans; [done|]; apply getLSData_grows; by right).
  destruct (rawGet layer monolithic key st); [done|].
  eapply grows_trans; [done|]. apply IH. by eapply grows_elem_of.
Qed.

Lemma layersLoop_layers layers segment key st :
  (∀ layer, layer ∈ layers → is_Some (_data st !! layer)) →
  _layers (layersLoop layers segment key st) = _layers st ∧
  ∀ layer, is_Some (_data (layersLoop layers segment key st) !! layer) ↔
           is_Some (_data st !! layer).
Proof.
  revert st. induction layers as [|layer layers IH]; intros st Hin; [done|].
  rewrite layersLoop_cons. simpl.
  destruct (Hin layer) as [lData HlData]; [by left|].
  set (st1 := (_getLSData layer segment st).2).
  set (st2 := (_getLSData layer monolithic st1).2).
  assert (_layers st1 = _layers st) as Hl1.
  { unfold st1. rewrite getLSData_layers. by rewrite HlData. }
  assert (∀ layer', is_Some (_data st1 !! layer') ↔ is_Some (_data st !! layer'))
    as Hd1.
  { intros layer'. unfold st1. rewrite getLSData_layer_is_Some.
    split; [|by right]. intros [->|]; [by exists lData|done]. }
  assert (_layers st2 = _layers st) as Hl2.
  { unfold st2. rewrite getLSData_layers.
    destruct (Hd1 layer) as [_ [? ->]]; [by exists lData|done]. }
  assert (∀ layer', is_Some (_data st2 !! layer') ↔ is_Some (_data st !! layer'))
    as Hd2.
  { intros layer'. unfold st2. rewrite getLSData_layer_is_Some, Hd1.
    split; [|by right]. intros [->|]; [by exists lData|done]. }
  destruct (rawGet layer segment key st); [done|].
  destruct (rawGet layer monolithic key st); [done|].
  destruct (IH st2) as [IH1 IH2].
  { intros layer' Hl'. apply Hd2, Hin. by right. }
  split; [by rewrite IH1|]. intros layer'. by rewrite IH2.
Qed.

(** The layer loop leaves in the cache what [resolveLayers] finds. *)
Lemma layersLoop_cache layers segment key st :
  _topLevelCache (layersLoop layers segment key st) =
  match resolveLayers layers segment key st with
  | Some value => alter (insert key value) segment (_topLevelCache st)
  | None => _topLevelCache st
  end.
Proof.
  revert st. induction layers as [|layer layers IH]; intros st; [done|].
  rewrite layersLoop_cons. simpl.
  destruct (rawGet layer segment key st).
  { simpl. by rewrite getLSData_cache. }
  destruct (rawGet layer monolithic key st).
  { simpl. by rewrite !getLSData_cache. }
  rewrite IH, !getLSData_cache.
  rewrite (resolveLayers_ext layers segment key st); [done|].
  intros. by rewrite !getLSData_rawGet.
Qed.

(** The state in which the layer loop of one segment starts. *)
Lemma sCache_prepared segment key st :
  sCache_delete segment key (sCache_get_or_create segment st) =
  mkCore (_data st) (_layers st) (_segments st)
    (<[segment := base.delete key (default ∅ (_topLevelCache st !! segment))]>
       (_topLevelCache st)).
Proof.
  unfold sCache_delete, sCache_get_or_create.
  destruct (_topLevelCache st !! segment) as [sCache|] eqn:Hc; simpl; f_equal.
  - rewrite <- (insert_id (_topLevelCache st) segment sCache) at 1 by done.
    by rewrite alter_insert_eq.
  - by rewrite alter_insert_eq.
Qed.

Lemma sCache_prepared_wf segment key st :
  wf st → segment ∈ _segments st →
  wf (sCache_delete segment key (sCache_get_or_create segment st)).
Proof.
  intros [Hsorted Hlayers Hnd Hdata Hcache] Hs. rewrite sCache_prepared.
  split; try done.
  intros segment'. simpl. rewrite lookup_insert_is_Some.
  intros [<-|[_ ?]]; [done|by apply Hcache].
Qed.

Lemma segmentsLoop_body_spec segment key st :
  wf st → segment ∈ _segments st →
  let st' := segmentsLoop_body segment key st in
  wf st' ∧
  (∀ layer' segment' key',
     rawGet layer' segment' key' st' = rawGet layer' segment' key' st) ∧
  _layers st' = _layers st ∧
  grows (_segments st) (_segments st') ∧
  _topLevelCache st' =
    <[segment :=
        let sCache := base.delete key (default ∅ (_topLevelCache st !! segment)) in
        match resolveLayers (_layers st) segment key st with
        | Some value => <[key := value]> sCache
        | None => sCache
        end]> (_topLevelCache st).
Proof.
  intros Hwf Hs. unfold segmentsLoop_body.
  pose proof (sCache_prepared_wf segment key st Hwf Hs) as Hwf2.
  pose proof (sCache_prepared segment key st) as Hst2.
  set (st2 := sCache_delete segment key (sCache_get_or_create segment st)) in *.
  assert (_layers st2 = _layers st) as Hl by (by rewrite Hst2).
  assert (_data st2 = _data st) as Hd by (by rewrite Hst2).
  assert (_segments st2 = _segments st) as Hsg by (by rewrite Hst2).
  assert (∀ layer' segment' key',
            rawGet layer' segment' key' st2 = rawGet layer' segment' key' st) as Hraw.
  { intros. unfold rawGet. by rewrite Hd. }
  cbv zeta. split_and!.
  - by apply layersLoop_wf.
  - intros. by rewrite layersLoop_rawGet.
  - rewrite <- Hl. apply layersLoop_layers.
    intros layer Hlayer. apply Hwf2. done.
  - rewrite <- Hsg. apply layersLoop_grows. by rewrite Hsg.
  - rewrite layersLoop_cache. rewrite (resolveLayers_ext _ _ _ st st2 Hraw), Hl.
    rewrite Hst2. simpl.
    destruct (resolveLayers (_layers st) segment key st); [|done].
    by rewrite alter_insert_eq.
Qed.

Lemma segmentsLoop_body_cacheGet segment key st segment' key' :
  wf st → segment ∈ _segments st →
  cacheGet segment' key' (segmentsLoop_body segment key st) =
  if decide (segment' = segment ∧ key' = key)
  then resolveLayers (_layers st) segment key st
  else cacheGet segment' key' st.
Proof.
  intros Hwf Hs.
  destruct (segmentsLoop_body_spec segment key st Hwf Hs) as (_ & _ & _ & _ & Hc).
  unfold cacheGet. rewrite Hc.
  destruct (decide (segment' = segment)) as [->|Hne].
  - rewrite lookup_insert_eq. simpl.
    destruct (decide (key' = key)) as [->|Hk].
    + rewrite decide_True by done.
      destruct (resolveLayers (_layers st) segment key st).
      * by rewrite lookup_insert_eq.
      * by rewrite lookup_delete_eq.
    + rewrite decide_False by tauto.
      destruct (resolveLayers (_layers st) segment key st).
      * rewrite lookup_insert_ne, lookup_delete_ne by done.
        by destruct (_topLevelCache st !! segment).
      * rewrite lookup_delete_ne by done.
        by destruct (_topLevelCache st !! segment).
  - rewrite lookup_insert_ne by done. by rewrite decide_False by tauto.
Qed.

Lemma segmentsLoop_body_cache_is_Some segment key st segment' :
  wf st → segment ∈ _segments st →
  is_Some (_topLevelCache (segmentsLoop_body segment key st) !! segment') ↔
  segment' = segment ∨ is_Some (_topLevelCache st !! segment').
Proof.
  intros Hwf Hs.
  destruct (segmentsLoop_body_spec segment key st Hwf Hs) as (_ & _ & _ & _ & Hc).
  rewrite Hc, lookup_insert_is_Some.
  destruct (decide (segment = segment')); naive_solver.
Qed.

(** The number of iterations the segment loop can still make is bounded by
    the members of the set not yet visited, plus one when the monolithic
    segment is still to be added. *)
Lemma grows_bound segs segs' :
  grows segs segs' →
  length segs' + (if decide (monolithic ∈ segs') then 0 else 1) ≤
  length segs + (if decide (monolithic ∈ segs) then 0 else 1).
Proof.
  intros [->|[Hm ->]]; [done|].
  rewrite length_app. simpl. destruct (decide (monolithic ∈ segs)); [done|].
  rewrite decide_True; [lia|].
  apply elem_of_app. right. by apply list_elem_of_singleton.
Qed.

Lemma segmentsLoop_spec key fuel : ∀ i st,
  wf st →
  length (_segments st) + (if decide (monolithic ∈ _segments st) then 0 else 1)
    ≤ fuel + i →
  (∀ j segment, j < i → _segments st !! j = Some segment →
     is_Some (_topLevelCache st !! segment) ∧
     cacheGet segment key st = resolveLayers (_layers st) segment key st) →
  let st' := segmentsLoop fuel i key st in
  wf st' ∧
  (∀ layer' segment' key',
     rawGet layer' segment' key' st' = rawGet layer' segment' key' st) ∧
  _layers st' = _layers st ∧
  grows (_segments st) (_segments st') ∧
  (∀ segment, segment ∈ _segments st' →
     is_Some (_topLevelCache st' !! segment) ∧
     cacheGet segment key st' = resolveLayers (_layers st') segment key st') ∧
  (∀ segment key', key' ≠ key →
     cacheGet segment key' st' = cacheGet segment key' st).
Proof.
  induction fuel as [|fuel IH]; intros i st Hwf Hfuel Hdone; simpl;
    destruct (_segments st !! i) as [segment|] eqn:Hi.
  - apply lookup_lt_Some in Hi. destruct (decide (monolithic ∈ _segments st)); lia.
  - split_and!; try done; [apply grows_refl|].
    intros segment [j Hj]%list_elem_of_lookup. apply (Hdone j); [|done].
    apply lookup_lt_Some in Hj. apply lookup_ge_None in Hi. lia.
  - assert (segment ∈ _segments st) as Hs by (apply list_elem_of_lookup; eauto).
    destruct (segmentsLoop_body_spec segment key st Hwf Hs)
      as (Hwf1 & Hraw1 & Hl1 & Hg1 & Hc1).
    pose proof (segmentsLoop_body_cacheGet segment key st) as Hget1.
    pose proof (segmentsLoop_body_cache_is_Some segment key st) as Hsome1.
    set (st1 := segmentsLoop_body segment key st) in *.
    destruct (IH (S i) st1) as (Hwf' & Hraw' & Hl' & Hg' & Hok' & Hother'); [done|..].
    + pose proof (grows_bound _ _ Hg1). lia.
    + intros j segment' Hj Hj'.
      assert (_segments st !! j = Some segment') as Hj0.
      { destruct (decide (j = i)) as [->|Hne].
        - pose proof (grows_lookup _ _ _ _ Hg1 Hi) as Hi1. congruence.
        - assert (j < length (_segments st)) as Hlt
            by (apply lookup_lt_Some in Hi; lia).
          apply lookup_lt_is_Some in Hlt as [segment'' Hj0].
          pose proof (grows_lookup _ _ _ _ Hg1 Hj0). congruence. }
      rewrite Hsome1, Hget1, Hl1 by done.
      rewrite (resolveLayers_ext _ _ _ st st1 Hraw1).
      destruct (decide (segment' = segment)) as [->|Hne].
      * rewrite decide_True by done. split; [by left|done].
      * rewrite decide_False by tauto.
        destruct (Hdone j segment') as [Hsome Hget]; [|done|].
        { destruct (decide (j = i)) as [->|]; [congruence|lia]. }
        split; [by right|done].
    + split_and!; try done.
      * intros. by rewrite Hraw', Hraw1.
      * by rewrite Hl', Hl1.
      * by eapply grows_trans.
      * intros segment' key' Hk. rewrite Hother' by done.
        rewrite Hget1 by done. by rewrite decide_False by tauto.
  - split_and!; try done; [apply grows_refl|].
    intros segment [j Hj]%list_elem_of_lookup. apply (Hdone j); [|done].
    apply lookup_lt_Some in Hj. apply lookup_ge_None in Hi. lia.
Qed.

(** Any fuel that covers the bound gives the same final state: the
    iteration of [_updateCache] always runs to the end of the set. *)
Lemma segmentsLoop_fuel key fuel : ∀ fuel' i st,
  wf st →
  length (_segments st) + (if decide (monolithic ∈ _segments st) then 0 else 1)
    ≤ fuel + i →
  length (_segments st) + (if decide (monolithic ∈ _segments st) then 0 else 1)
    ≤ fuel' + i →
  segmentsLoop fuel i key st = segmentsLoop fuel' i key st.
Proof.
  induction fuel as [|fuel IH]; intros fuel' i st Hwf Hfuel Hfuel';
    destruct fuel' as [|fuel']; simpl;
    destruct (_segments st !! i) as [segment|] eqn:Hi; try done.
  - apply lookup_lt_Some in Hi. destruct (decide (monolithic ∈ _segments st)); lia.
  - apply lookup_lt_Some in Hi. destruct (decide (monolithic ∈ _segments st)); lia.
  - assert (segment ∈ _segments st) as Hs by (apply list_elem_of_lookup; eauto).
    destruct (segmentsLoop_body_spec segment key st Hwf Hs)
      as (Hwf1 & _ & _ & Hg1 & _).
    pose proof (grows_bound _ _ Hg1).
    apply IH; [done|lia|lia].
Qed.

Lemma updateCache_fuel key st fuel :
  wf st → S (length (_segments st)) ≤ fuel →
  segmentsLoop fuel 0 key st = _updateCache key st.
Proof.
  intros Hwf Hfuel. unfold _updateCache.
  apply segmentsLoop_fuel; [done|..];
    destruct (decide (monolithic ∈ _segments st)); lia.
Qed.

Lemma updateCache_spec key st :
  wf st →
  let st' := _updateCache key st in
  wf st' ∧
  (∀ layer' segment' key',
     rawGet layer' segment' key' st' = rawGet layer' segment' key' st) ∧
  _layers st' = _layers st ∧
  grows (_segments st) (_segments st') ∧
  (∀ segment, segment ∈ _segments st' →
     is_Some (_topLevelCache st' !! segment) ∧
     cacheGet segment key st' = resolveLayers (_layers st') segment key st') ∧
  (∀ segment key', key' ≠ key →
     cacheGet segment key' st' = cacheGet segment key' st).
Proof.
  intros Hwf. apply segmentsLoop_spec; [done| |intros; lia].
  destruct (decide (monolithic ∈ _segments st)); lia.
Qed.

End updateCache.

Section methods.

Context {Value : Type}.
Implicit Types (st : Core Value) (layer : Z) (segment : Segment) (key : string).

Lemma wf_init : wf (@init Value).
Proof.
  split; simpl.
  - constructor.
  - intros layer. rewrite lookup_empty, elem_of_nil. split; [done|]. by intros [].
  - constructor.
  - intros layer segment. unfold rawSegment. simpl. rewrite lookup_empty. by intros [].
  - intros segment. rewrite lookup_empty. by intros [].
Qed.

(** In a well-formed state the layer list is the sorted enumeration of the
    raw store's layers, so resolution over it is [resolve]. *)
Lemma wf_layers_sort st : wf st → _layers st = sort reverseNumeric (keys (_data st)).
Proof.
  intros Hwf. apply descending_sort.
  - apply Hwf.
  - apply keys_NoDup.
  - intros layer. rewrite keys_elem_of. apply Hwf.
Qed.

Lemma wf_resolve segment key st :
  wf st → resolveLayers (_layers st) segment key st = resolve segment key st.
Proof. intros Hwf. unfold resolve. by rewrite <- wf_layers_sort. Qed.

Lemma lsData_set_rawSegment layer segment key value st layer' segment' :
  is_Some (rawSegment layer' segment' (lsData_set layer segment key value st)) ↔
  is_Some (rawSegment layer' segment' st).
Proof.
  unfold rawSegment, lsData_set. simpl.
  destruct (decide (layer' = layer)) as [->|Hl].
  - rewrite lookup_alter_eq. destruct (_data st !! layer) as [lData|]; simpl; [|done].
    by rewrite lookup_alter_is_Some.
  - by rewrite lookup_alter_ne.
Qed.

Lemma lsData_delete_rawSegment layer segment key st layer' segment' :
  is_Some (rawSegment layer' segment' (lsData_delete layer segment key st)) ↔
  is_Some (rawSegment layer' segment' st).
Proof.
  unfold rawSegment, lsData_delete. simpl.
  destruct (decide (layer' = layer)) as [->|Hl].
  - rewrite lookup_alter_eq. destruct (_data st !! layer) as [lData|]; simpl; [|done].
    by rewrite lookup_alter_is_Some.
  - by rewrite lookup_alter_ne.
Qed.

Lemma lsData_set_wf layer segment key value st :
  wf st → wf (lsData_set layer segment key value st).
Proof.
  intros [Hsorted Hlayers Hnd Hdata Hcache]. split; try done.
  - intros layer'. simpl. rewrite lookup_alter_is_Some. apply Hlayers.
  - intros layer' segment'. rewrite lsData_set_rawSegment. apply Hdata.
Qed.

Lemma lsData_delete_wf layer segment key st :
  wf st → wf (lsData_delete layer segment key st).
Proof.
  intros [Hsorted Hlayers Hnd Hdata Hcache]. split; try done.
  - intros layer'. simpl. rewrite lookup_alter_is_Some. apply Hlayers.
  - intros layer' segment'. rewrite lsData_delete_rawSegment. apply Hdata.
Qed.

Lemma lsData_set_rawGet layer segment key value st layer' segment' key' :
  is_Some (rawSegment layer segment st) →
  rawGet layer' segment' key' (lsData_set layer segment key value st) =
  if decide (layer' = layer ∧ segment' = segment ∧ key' = key)
  then Some value else rawGet layer' segment' key' st.
Proof.
  unfold rawSegment, rawGet, lsData_set. simpl. intros Hs.
  destruct (decide (layer' = layer)) as [->|Hl].
  - rewrite lookup_alter_eq. destruct (_data st !! layer) as [lData|]; simpl in *;
      [|by destruct Hs].
    destruct (decide (segment' = segment)) as [->|Hsg].
    + rewrite lookup_alter_eq. destruct (lData !! segment) as [lsData|]; simpl in *;
        [|by destruct Hs].
      destruct (decide (key' = key)) as [->|Hk].
      * rewrite lookup_insert_eq. by rewrite decide_True.
      * rewrite lookup_insert_ne by done. by rewrite decide_False by tauto.
    + rewrite lookup_alter_ne by done. by rewrite decide_False by tauto.
  - rewrite lookup_alter_ne by done. by rewrite decide_False by tauto.
Qed.

Lemma lsData_delete_rawGet layer segment key st layer' segment' key' :
  rawGet layer' segment' key' (lsData_delete layer segment key st) =
  if decide (layer' = layer ∧ segment' = segment ∧ key' = key)
  then None else rawGet layer' segment' key' st.
Proof.
  unfold rawGet, lsData_delete. simpl.
  destruct (decide (layer' = layer)) as [->|Hl].
  - rewrite lookup_alter_eq. destruct (_data st !! layer) as [lData|]; simpl;
      [|by case_decide].
    destruct (decide (segment' = segment)) as [->|Hsg].
    + rewrite lookup_alter_eq. destruct (lData !! segment) as [lsData|]; simpl;
        [|by case_decide].
      destruct (decide (key' = key)) as [->|Hk].
      * rewrite lookup_delete_eq. by rewrite decide_True.
      * rewrite lookup_delete_ne by done. by rewrite decide_False by tauto.
    + rewrite lookup_alter_ne by done. by rewrite decide_False by tauto.
  - rewrite lookup_alter_ne by done. by rewrite decide_False by tauto.
Qed.

Lemma set_eq layer segment key value st :
  set layer segment key value st =
  _updateCache key (lsData_set layer segment key value (_getLSData layer segment st).2).
Proof. unfold set. by destruct (_getLSData layer segment st). Qed.

Lemma delete_eq layer segment key st :
  delete layer segment key st =
  _updateCache key (lsData_delete layer segment key (_getLSData layer segment st).2).
Proof. unfold delete. by destruct (_getLSData layer segment st). Qed.

Lemma resolveLayers_is_Some layers layer segment key st :
  layer ∈ layers → is_Some (rawGet layer segment key st) →
  is_Some (resolveLayers layers segment key st).
Proof.
  intros Hl Hv. induction layers as [|layer' layers IH]; [by apply elem_of_nil in Hl|].
  simpl. destruct (rawGet layer' segment key st) eqn:H1; [done|].
  destruct (rawGet layer' monolithic key st) eqn:H2; [done|].
  apply elem_of_cons in Hl as [->|Hl]; [|by apply IH].
  rewrite H1 in Hv. by destruct Hv.
Qed.

(** A segment without a value for the key resolves like the monolithic
    segment. *)
Lemma resolveLayers_no_value layers segment key st :
  (∀ layer, rawGet layer segment key st = None) →
  resolveLayers layers segment key st = resolveLayers layers monolithic key st.
Proof.
  intros Hnone. induction layers as [|layer layers IH]; [done|].
  simpl. rewrite Hnone, IH. by destruct (rawGet layer monolithic key st).
Qed.

Lemma resolveLayers_None layers segment key st :
  (∀ layer, rawGet layer segment key st = None) →
  (∀ layer, rawGet layer monolithic key st = None) →
  resolveLayers layers segment key st = None.
Proof.
  intros H1 H2. induction layers as [|layer layers IH]; [done|].
  simpl. by rewrite H1, H2.
Qed.

Lemma wf_unknown_rawGet layer segment key st :
  wf st → segment ∉ _segments st → rawGet layer segment key st = None.
Proof.
  intros Hwf Hs. rewrite rawGet_rawSegment.
  destruct (rawSegment layer segment st) eqn:H; [|done].
  destruct Hs. apply (wf_data_segments st Hwf layer). by rewrite H.
Qed.

Lemma wf_unknown_cache segment st :
  wf st → segment ∉ _segments st → _topLevelCache st !! segment = None.
Proof.
  intros Hwf Hs. destruct (_topLevelCache st !! segment) eqn:H; [|done].
  destruct Hs. apply (wf_cache_segments st Hwf). by rewrite H.
Qed.

(** Where the cache entries of a key are resolved for every known segment,
    [get] returns the resolved value for every segment, known or not. *)
Lemma get_resolved key st :
  wf st → cached st →
  (∀ segment, segment ∈ _segments st →
     cacheGet segment key st = resolve segment key st) →
  ∀ segment, (get segment key st).1 = resolve segment key st.
Proof.
  intros Hwf Hcached Hres segment. unfold get.
  destruct (_topLevelCache st !! segment) as [sData|] eqn:Hc.
  { simpl. rewrite <- Hres.
    - unfold cacheGet. by rewrite Hc.
    - apply Hwf. by rewrite Hc. }
  assert (segment ∉ _segments st) as Hs.
  { intros [? H]%Hcached. congruence. }
  rewrite <- (wf_resolve segment key st Hwf).
  destruct (_topLevelCache st !! monolithic) as [mData|] eqn:Hm; simpl.
  - rewrite resolveLayers_no_value by (intros; by apply wf_unknown_rawGet).
    rewrite wf_resolve by done. rewrite <- Hres.
    + unfold cacheGet. by rewrite Hm.
    + apply Hwf. by rewrite Hm.
  - symmetry. apply resolveLayers_None; intros; apply wf_unknown_rawGet; try done.
    intros [? H]%Hcached. congruence.
Qed.

Lemma updateCache_resolved key st :
  wf st →
  let st' := _updateCache key st in
  wf st' ∧ cached st' ∧
  (∀ layer' segment' key',
     rawGet layer' segment' key' st' = rawGet layer' segment' key' st) ∧
  _layers st' = _layers st ∧
  grows (_segments st) (_segments st') ∧
  (∀ segment, segment ∈ _segments st' →
     cacheGet segment key st' = resolve segment key st') ∧
  (∀ segment key', key' ≠ key →
     cacheGet segment key' st' = cacheGet segment key' st).
Proof.
  intros Hwf.
  destruct (updateCache_spec key st Hwf) as (Hwf' & Hraw & Hl & Hg & Hok & Hother).
  split_and!; try done.
  - intros segment Hs. by apply Hok.
  - intros segment Hs. rewrite <- wf_resolve by done. by apply Hok.
Qed.

Lemma set_spec layer segment key value st :
  wf st →
  let st' := set layer segment key value st in
  wf st' ∧ cached st' ∧
  (∀ layer' segment' key',
     rawGet layer' segment' key' st' =
     if decide (layer' = layer ∧ segment' = segment ∧ key' = key)
     then Some value else rawGet layer' segment' key' st) ∧
  (∀ segment', segment' ∈ _segments st' →
     cacheGet segment' key st' = resolve segment' key st') ∧
  (∀ segment' key', key' ≠ key →
     cacheGet segment' key' st' = cacheGet segment' key' st) ∧
  (∀ layer', layer' ∈ _layers st' ↔ layer' = layer ∨ layer' ∈ _layers st) ∧
  segment ∈ _segments st' ∧
  (∀ segment', segment' ∈ _segments st → segment' ∈ _segments st').
Proof.
  intros Hwf. rewrite set_eq.
  pose proof (getLSData_wf layer segment st Hwf) as Hwf1.
  pose proof (getLSData_rawSegment layer segment st layer segment) as Hseg1.
  rewrite decide_True in Hseg1 by done.
  pose proof (getLSData_cache layer segment st) as Hc1.
  pose proof (getLSData_segments layer segment st) as Hsg1.
  pose proof (getLSData_layer_is_Some layer segment st) as Hd1.
  pose proof (getLSData_rawGet layer segment st) as Hraw1.
  set (st1 := (_getLSData layer segment st).2) in *.
  pose proof (lsData_set_wf layer segment key value st1 Hwf1) as Hwf2.
  pose proof (lsData_set_rawGet layer segment key value st1) as Hraw2.
  set (st2 := lsData_set layer segment key value st1) in *.
  destruct (updateCache_resolved key st2 Hwf2)
    as (Hwf' & Hcached' & Hraw' & Hl' & Hg' & Hres' & Hother').
  assert (segment ∈ _segments st1) as Hin1.
  { apply (wf_data_segments st1 Hwf1 layer). by rewrite Hseg1. }
  cbv zeta. split_and!; try done.
  - intros. rewrite Hraw', Hraw2 by (by rewrite Hseg1). by rewrite Hraw1.
  - intros. rewrite Hother' by done. unfold cacheGet. simpl. by rewrite Hc1.
  - intros layer'. rewrite Hl'. change (_layers st2) with (_layers st1).
    rewrite (wf_layers_data st1 Hwf1), Hd1. by rewrite (wf_layers_data st Hwf).
  - by eapply grows_elem_of.
  - intros segment' Hs'. eapply grows_elem_of; [done|].
    change (_segments st2) with (_segments st1). rewrite Hsg1.
    destruct (rawSegment layer segment st); [done|].
    apply Set_add_elem_of. by right.
Qed.

Lemma delete_spec layer segment key st :
  wf st →
  let st' := delete layer segment key st in
  wf st' ∧ cached st' ∧
  (∀ layer' segment' key',
     rawGet layer' segment' key' st' =
     if decide (layer' = layer ∧ segment' = segment ∧ key' = key)
     then None else rawGet layer' segment' key' st) ∧
  (∀ segment', segment' ∈ _segments st' →
     cacheGet segment' key st' = resolve segment' key st') ∧
  (∀ segment' key', key' ≠ key →
     cacheGet segment' key' st' = cacheGet segment' key' st) ∧
  (∀ layer', layer' ∈ _layers st' ↔ layer' = layer ∨ layer' ∈ _layers st) ∧
  segment ∈ _segments st' ∧
  (∀ segment', segment' ∈ _segments st → segment' ∈ _segments st').
Proof.
  intros Hwf. rewrite delete_eq.
  pose proof (getLSData_wf layer segment st Hwf) as Hwf1.
  pose proof (getLSData_rawSegment layer segment st layer segment) as Hseg1.
  rewrite decide_True in Hseg1 by done.
  pose proof (getLSData_cache layer segment st) as Hc1.
  pose proof (getLSData_segments layer segment st) as Hsg1.
  pose proof (getLSData_layer_is_Some layer segment st) as Hd1.
  pose proof (getLSData_rawGet layer segment st) as Hraw1.
  set (st1 := (_getLSData layer segment st).2) in *.
  pose proof (lsData_delete_wf layer segment key st1 Hwf1) as Hwf2.
  pose proof (lsData_delete_rawGet layer segment key st1) as Hraw2.
  set (st2 := lsData_delete layer segment key st1) in *.
  destruct (updateCache_resolved key st2 Hwf2)
    as (Hwf' & Hcached' & Hraw' & Hl' & Hg' & Hres' & Hother').
  assert (segment ∈ _segments st1) as Hin1.
  { apply (wf_data_segments st1 Hwf1 layer). by rewrite Hseg1. }
  cbv zeta. split_and!; try done.
  - intros. rewrite Hraw', Hraw2. by rewrite Hraw1.
  - intros. rewrite Hother' by done. unfold cacheGet. simpl. by rewrite Hc1.
  - intros layer'. rewrite Hl'. change (_layers st2) with (_layers st1).
    rewrite (wf_layers_data st1 Hwf1), Hd1. by rewrite (wf_layers_data st Hwf).
  - by eapply grows_elem_of.
  - intros segment' Hs'. eapply grows_elem_of; [done|].
    change (_segments st2) with (_segments st1). rewrite Hsg1.
    destruct (rawSegment layer segment st); [done|].
    apply Set_add_elem_of. by right.
Qed.

End methods.

Section sequences.

Context {Value : Type}.
Implicit Types (st : Core Value) (layer : Z) (segment : Segment) (key : string).
Implicit Types (op : Op Value) (ops : list (Op Value)).

Lemma deleteSegmentData_rawSegment segment st layer' segment' :
  rawSegment layer' segment' (deleteSegmentData segment st) =
  if decide (segment' = segment) then None else rawSegment layer' segment' st.
Proof.
  unfold rawSegment, deleteSegmentData. simpl. rewrite lookup_fmap.
  destruct (_data st !! layer') as [lData|]; simpl; [|by case_decide].
  case_decide as H; [subst; apply lookup_delete_eq|by apply lookup_delete_ne].
Qed.

Lemma deleteSegmentData_rawGet segment st layer' segment' key' :
  rawGet layer' segment' key' (deleteSegmentData segment st) =
  if decide (segment' = segment) then None else rawGet layer' segment' key' st.
Proof.
  rewrite !rawGet_rawSegment, deleteSegmentData_rawSegment. by case_decide.
Qed.

Lemma deleteSegmentData_wf segment st : wf st → wf (deleteSegmentData segment st).
Proof.
  intros [Hsorted Hlayers Hnd Hdata Hcache]. split; simpl.
  - done.
  - intros layer. rewrite lookup_fmap, fmap_is_Some. apply Hlayers.
  - by apply Set_delete_NoDup.
  - intros layer' segment'. rewrite deleteSegmentData_rawSegment.
    case_decide as Hne; [by intros []|]. intros Hs%Hdata.
    by apply Set_delete_elem_of.
  - intros segment'. rewrite lookup_delete_is_Some. intros [Hne Hs%Hcache].
    by apply Set_delete_elem_of.
Qed.

Lemma deleteSegmentData_cached segment st :
  cached st → cached (deleteSegmentData segment st).
Proof.
  intros Hcached segment'. simpl.
  intros [Hs Hne]%Set_delete_elem_of.
  rewrite lookup_delete_is_Some. split; [done|]. by apply Hcached.
Qed.

(** Clearing a segment the store does not know changes nothing. *)
Lemma deleteSegmentData_unknown segment st :
  wf st → segment ∉ _segments st → deleteSegmentData segment st = st.
Proof.
  intros Hwf Hs. destruct st as [data layers segments cache].
  unfold deleteSegmentData. simpl in *. f_equal.
  - apply map_eq. intros layer. rewrite lookup_fmap.
    destruct (data !! layer) as [lData|] eqn:Hl; simpl; [|done].
    f_equal. apply delete_id.
    destruct (lData !! segment) eqn:Hsg; [|done].
    destruct Hs. apply (wf_data_segments _ Hwf layer).
    unfold rawSegment. simpl. rewrite Hl. simpl. by rewrite Hsg.
  - by apply Set_delete_not_member.
  - apply delete_id. by apply (wf_unknown_cache segment _ Hwf).
Qed.

Lemma run_snoc ops op : run (ops ++ [op]) = step (run ops) op.
Proof. unfold run. by rewrite foldl_app. Qed.

Lemma step_wf st op : wf st → cached st → wf (step st op) ∧ cached (step st op).
Proof.
  intros Hwf Hcached.
  destruct op as [layer segment key value|layer segment key|segment]; simpl.
  - by destruct (set_spec layer segment key value st Hwf) as (? & ? & _).
  - by destruct (delete_spec layer segment key st Hwf) as (? & ? & _).
  - split; [by apply deleteSegmentData_wf|by apply deleteSegmentData_cached].
Qed.

(** Every state a sequence of operations leads to is well-formed. *)
Lemma run_wf ops : wf (run ops) ∧ cached (run ops).
Proof.
  induction ops as [|op ops IH] using rev_ind.
  - split; [apply wf_init|]. intros segment Hs. by apply elem_of_nil in Hs.
  - rewrite run_snoc. destruct IH. by apply step_wf.
Qed.

Lemma has_cacheGet segment key st :
  (has segment key st).1 = true ↔ is_Some (cacheGet segment key st).
Proof.
  unfold has, cacheGet.
  destruct (_topLevelCache st !! segment) as [sData|]; simpl.
  - by rewrite bool_decide_eq_true.
  - split; [done|]. by intros [].
Qed.

Lemma step_layers st op layer :
  wf st →
  layer ∈ _layers (step st op) ↔ op_layer op = Some layer ∨ layer ∈ _layers st.
Proof.
  intros Hwf. destruct op as [layer' segment key value|layer' segment key|segment];
    simpl.
  - destruct (set_spec layer' segment key value st Hwf)
      as (_ & _ & _ & _ & _ & Hl & _).
    rewrite Hl. naive_solver.
  - destruct (delete_spec layer' segment key st Hwf)
      as (_ & _ & _ & _ & _ & Hl & _).
    rewrite Hl. naive_solver.
  - naive_solver.
Qed.

Lemma run_layers ops layer :
  layer ∈ _layers (run ops) ↔ ∃ op, op ∈ ops ∧ op_layer op = Some layer.
Proof.
  induction ops as [|op ops IH] using rev_ind.
  - simpl. split; [by intros ?%elem_of_nil|]. by intros (? & ?%elem_of_nil & _).
  - rewrite run_snoc, step_layers by apply run_wf. rewrite IH. split.
    + intros [Hop|(op' & Hin & Hop')].
      * exists op. split; [|done]. apply elem_of_app. right. by left.
      * exists op'. split; [|done]. apply elem_of_app. by left.
    + intros (op' & [Hin|Hin%list_elem_of_singleton]%elem_of_app & Hop').
      * right. by exists op'.
      * left. by subst.
Qed.

End sequences.

Section resolution.

Context {Value : Type}.
Implicit Types (st : Core Value) (layer : Z) (segment : Segment) (key : string).
Implicit Types (layers : list Z).

Lemma resolveLayers_cons_hit layer layers segment key st :
  resolveLayers (layer :: layers) segment key st =
  match hit st segment key layer with
  | Some value => Some value
  | None => resolveLayers layers segment key st
  end.
Proof.
  simpl. unfold hit. destruct (rawGet layer segment key st); [done|].
  by destruct (rawGet layer monolithic key st).
Qed.

(** Over a descending layer list, resolution returns what the highest
    contributing layer contributes. *)
Lemma resolveLayers_Some layers segment key st value :
  StronglySorted descending layers →
  resolveLayers layers segment key st = Some value ↔
  ∃ layer, layer ∈ layers ∧ hit st segment key layer = Some value ∧
    ∀ layer', layer' ∈ layers → (layer < layer')%Z →
              hit st segment key layer' = None.
Proof.
  induction 1 as [|layer0 layers Hsorted IH Hall]; [|rewrite Forall_forall in Hall].
  { simpl. split; [done|]. by intros (? & ?%elem_of_nil & _). }
  rewrite resolveLayers_cons_hit.
  destruct (hit st segment key layer0) as [value0|] eqn:Hhit.
  - split.
    + intros [= ->]. exists layer0. split_and!; [by left|done|].
      intros layer' [->|Hin]%elem_of_cons Hlt; [lia|].
      apply Hall in Hin. unfold descending in Hin. lia.
    + intros (layer & [->|Hin]%elem_of_cons & Hv & Habove); [congruence|].
      rewrite Habove in Hhit; [done|by left|]. by apply Hall.
  - rewrite IH. split.
    + intros (layer & Hin & Hv & Habove). exists layer.
      split_and!; [by right|done|].
      intros layer' [->|Hin']%elem_of_cons Hlt; [done|by apply Habove].
    + intros (layer & [->|Hin]%elem_of_cons & Hv & Habove); [congruence|].
      exists layer. split_and!; [done|done|].
      intros layer' Hin' Hlt. apply Habove; [by right|done].
Qed.

(** Two descending layer lists over two stores resolve alike when, from
    some layer upwards, the contributing layers and their contributions
    are the same, and every layer that resolution stops at lies there. *)
Lemma resolveLayers_transfer (above : Z → Prop) layers1 layers2 segment key
    st1 st2 value :
  StronglySorted descending layers1 → StronglySorted descending layers2 →
  (∀ layer layer', above layer → (layer < layer')%Z → above layer') →
  (∀ layer, layer ∈ layers1 → is_Some (hit st1 segment key layer) →
     (∀ layer', layer' ∈ layers1 → (layer < layer')%Z →
                hit st1 segment key layer' = None) →
     above layer) →
  (∀ layer, above layer → layer ∈ layers1 →
     is_Some (hit st1 segment key layer) → layer ∈ layers2) →
  (∀ layer, above layer → layer ∈ layers2 →
     is_Some (hit st2 segment key layer) → layer ∈ layers1) →
  (∀ layer, above layer → layer ∈ layers1 → layer ∈ layers2 →
     hit st1 segment key layer = hit st2 segment key layer) →
  resolveLayers layers1 segment key st1 = Some value →
  resolveLayers layers2 segment key st2 = Some value.
Proof.
  intros Hs1 Hs2 Hup Hstop H12 H21 Heq.
  rewrite !resolveLayers_Some by done.
  intros (layer & Hin & Hv & Habove).
  assert (above layer) as Hab by (apply Hstop; [done|by rewrite Hv|done]).
  assert (layer ∈ layers2) as Hin2 by (apply H12; [done|done|by rewrite Hv]).
  exists layer. split_and!; [done|by rewrite <- Heq|].
  intros layer' Hin' Hlt.
  destruct (hit st2 segment key layer') as [value'|] eqn:Hhit'; [|done].
  assert (above layer') as Hab' by (by eapply Hup).
  assert (layer' ∈ layers1) as Hin1' by (apply H21; [done|done|by rewrite Hhit']).
  rewrite <- Heq, Habove in Hhit'; done.
Qed.

(** Layers that contribute nothing do not matter. *)
Lemma resolveLayers_same_hits layers1 layers2 segment key st1 st2 :
  StronglySorted descending layers1 → StronglySorted descending layers2 →
  (∀ layer, layer ∈ layers1 → is_Some (hit st1 segment key layer) →
            layer ∈ layers2) →
  (∀ layer, layer ∈ layers2 → is_Some (hit st2 segment key layer) →
            layer ∈ layers1) →
  (∀ layer, layer ∈ layers1 → layer ∈ layers2 →
            hit st1 segment key layer = hit st2 segment key layer) →
  resolveLayers layers1 segment key st1 = resolveLayers layers2 segment key st2.
Proof.
  intros Hs1 Hs2 H12 H21 Heq. apply option_eq. intros value. split.
  - apply (resolveLayers_transfer (λ _, True)); auto.
  - apply (resolveLayers_transfer (λ _, True)); auto.
    intros. symmetry. auto.
Qed.

(** Below a layer on which the segment has a value of its own, nothing
    matters. *)
Lemma resolveLayers_above layers1 layers2 segment key st1 st2 layer0 :
  StronglySorted descending layers1 → StronglySorted descending layers2 →
  layer0 ∈ layers1 → layer0 ∈ layers2 →
  is_Some (hit st1 segment key layer0) → is_Some (hit st2 segment key layer0) →
  (∀ layer, (layer0 ≤ layer)%Z → layer ∈ layers1 ↔ layer ∈ layers2) →
  (∀ layer, (layer0 ≤ layer)%Z →
            hit st1 segment key layer = hit st2 segment key layer) →
  resolveLayers layers1 segment key st1 = resolveLayers layers2 segment key st2.
Proof.
  intros Hs1 Hs2 Hin1 Hin2 Hhit1 Hhit2 Hlayers Heq.
  apply option_eq. intros value. split.
  - apply (resolveLayers_transfer (λ layer, (layer0 ≤ layer)%Z)); try done.
    + intros. lia.
    + intros layer Hin [v Hv] Habove.
      destruct (decide (layer0 ≤ layer)%Z) as [|Hlt]; [done|].
      rewrite Habove in Hhit1; [by destruct Hhit1|done|lia].
    + intros layer ? ? _. by apply Hlayers.
    + intros layer ? ? _. by apply Hlayers.
    + intros. by apply Heq.
  - apply (resolveLayers_transfer (λ layer, (layer0 ≤ layer)%Z)); try done.
    + intros. lia.
    + intros layer Hin [v Hv] Habove.
      destruct (decide (layer0 ≤ layer)%Z) as [|Hlt]; [done|].
      rewrite Habove in Hhit2; [by destruct Hhit2|done|lia].
    + intros layer ? ? _. by apply Hlayers.
    + intros layer ? ? _. by apply Hlayers.
    + intros. symmetry. by apply Heq.
Qed.

Lemma wf_no_layer_rawGet layer segment key st :
  wf st → layer ∉ _layers st → rawGet layer segment key st = None.
Proof.
  intros Hwf Hl. unfold rawGet.
  destruct (_data st !! layer) eqn:H; [|done].
  destruct Hl. apply Hwf. by rewrite H.
Qed.

Lemma wf_no_layer_hit layer segment key st :
  wf st → layer ∉ _layers st → hit st segment key layer = None.
Proof. intros Hwf Hl. unfold hit. by rewrite !wf_no_layer_rawGet. Qed.

Lemma get_known segment key st :
  is_Some (_topLevelCache st !! segment) →
  (get segment key st).1 = cacheGet segment key st.
Proof. intros [sData Hs]. unfold get, cacheGet. by rewrite Hs. Qed.

End resolution.

Section settled_cache.

Context {Value : Type}.
Implicit Types (st : Core Value) (layer : Z) (segment : Segment) (key : string).
Implicit Types (op : Op Value) (ops : list (Op Value)).

Lemma wf_rawGet_layer layer segment key st :
  wf st → is_Some (rawGet layer segment key st) → layer ∈ _layers st.
Proof.
  intros Hwf Hv. destruct (decide (layer ∈ _layers st)) as [|Hl]; [done|].
  rewrite wf_no_layer_rawGet in Hv by done. by destruct Hv.
Qed.

Lemma wf_rawGet_segment layer segment key st :
  wf st → is_Some (rawGet layer segment key st) → segment ∈ _segments st.
Proof.
  intros Hwf Hv. destruct (decide (segment ∈ _segments st)) as [|Hs]; [done|].
  rewrite wf_unknown_rawGet in Hv by done. by destruct Hv.
Qed.

(** A mutation of one key keeps the cache settled: the entries of the key
    are resolved afresh, the resolution of the other keys does not change,
    and a segment registered by the call has no entry and no value for
    them. *)
Lemma mutation_settled key st st' :
  wf st → wf st' → settled st →
  (∀ layer segment key', key' ≠ key →
     rawGet layer segment key' st' = rawGet layer segment key' st) →
  (∀ segment, segment ∈ _segments st' →
     cacheGet segment key st' = resolve segment key st') →
  (∀ segment key', key' ≠ key →
     cacheGet segment key' st' = cacheGet segment key' st) →
  (∀ layer, layer ∈ _layers st → layer ∈ _layers st') →
  settled st'.
Proof.
  intros Hwf Hwf' Hsettled Hraw Hres Hother Hlayers segment key' Hs.
  destruct (decide (key' = key)) as [->|Hk]; [left; by apply Hres|].
  assert (∀ segment' layer,
            hit st' segment' key' layer = hit st segment' key' layer) as Hhit.
  { intros. unfold hit. by rewrite !Hraw. }
  assert (resolve segment key' st' = resolve segment key' st) as Hresolve.
  { rewrite <- !wf_resolve by done.
    apply resolveLayers_same_hits; [apply Hwf'|apply Hwf| |by auto|by auto].
    intros layer _ Hv. rewrite Hhit in Hv.
    destruct (decide (layer ∈ _layers st)) as [|Hl]; [done|].
    rewrite wf_no_layer_hit in Hv by done. by destruct Hv. }
  rewrite Hother, Hresolve by done.
  destruct (decide (segment ∈ _segments st)) as [Hs0|Hs0].
  - destruct (Hsettled segment key' Hs0) as [|[? Hnone]]; [by left|right].
    split; [done|]. intros. by rewrite Hraw.
  - right. split.
    + unfold cacheGet. by rewrite wf_unknown_cache.
    + intros. rewrite Hraw by done. by apply wf_unknown_rawGet.
Qed.

Lemma set_settled layer segment key value st :
  wf st → settled st → settled (set layer segment key value st).
Proof.
  intros Hwf Hsettled.
  destruct (set_spec layer segment key value st Hwf)
    as (Hwf' & _ & Hraw & Hres & Hother & Hl & _).
  apply (mutation_settled key st); try done.
  - intros. rewrite Hraw. by rewrite decide_False by tauto.
  - intros. apply Hl. by right.
Qed.

Lemma delete_settled layer segment key st :
  wf st → settled st → settled (delete layer segment key st).
Proof.
  intros Hwf Hsettled.
  destruct (delete_spec layer segment key st Hwf)
    as (Hwf' & _ & Hraw & Hres & Hother & Hl & _).
  apply (mutation_settled key st); try done.
  - intros. rewrite Hraw. by rewrite decide_False by tauto.
  - intros. apply Hl. by right.
Qed.

(** Clearing a segment other than the monolithic one keeps the cache
    settled: no other segment resolves through it. *)
Lemma deleteSegmentData_settled segment st :
  segment ≠ monolithic → settled st → settled (deleteSegmentData segment st).
Proof.
  intros Hne Hsettled segment' key.
  intros [Hs Hne']%Set_delete_elem_of.
  assert (cacheGet segment' key (deleteSegmentData segment st) =
          cacheGet segment' key st) as ->.
  { unfold cacheGet. simpl. by rewrite lookup_delete_ne. }
  assert (∀ layer, rawGet layer segment' key (deleteSegmentData segment st) =
                   rawGet layer segment' key st) as Hraw.
  { intros. rewrite deleteSegmentData_rawGet. by rewrite decide_False. }
  assert (resolve segment' key (deleteSegmentData segment st) =
          resolve segment' key st) as ->.
  { unfold resolve. simpl.
    assert (sort reverseNumeric (keys (base.delete segment <$> _data st)) =
            sort reverseNumeric (keys (_data st))) as ->.
    { apply sort_members; [apply keys_NoDup..|].
      intros layer. by rewrite !keys_elem_of, lookup_fmap, fmap_is_Some. }
    induction (sort reverseNumeric (keys (_data st))) as [|layer layers IH];
      [done|].
    simpl. rewrite Hraw, IH, deleteSegmentData_rawGet.
    by rewrite decide_False by done. }
  destruct (Hsettled segment' key Hs) as [|[? Hnone]]; [by left|right].
  split; [done|]. intros. by rewrite Hraw.
Qed.

Lemma run_settled ops :
  Forall (λ op, op ≠ OpDeleteSegmentData monolithic) ops → settled (run ops).
Proof.
  induction ops as [|op ops IH] using rev_ind; intros Hops.
  - intros segment key Hs. by apply elem_of_nil in Hs.
  - apply Forall_app in Hops as [Hops Hop]. rewrite Forall_singleton in Hop.
    rewrite run_snoc. destruct (run_wf ops) as [Hwf _].
    destruct op as [layer segment key value|layer segment key|segment]; simpl.
    + by apply set_settled, IH.
    + by apply delete_settled, IH.
    + apply deleteSegmentData_settled; [|by apply IH].
      intros ->. by apply Hop.
Qed.

(** In a settled cache the only way [get] misses the resolved value is a
    known segment without a value of its own for the key and without a
    cache entry for it. *)
Lemma settled_get segment key st :
  wf st → cached st → settled st →
  (get segment key st).1 = resolve segment key st ∨
  ((get segment key st).1 = None ∧ segment ∈ _segments st ∧
   ∀ layer, rawGet layer segment key st = None).
Proof.
  intros Hwf Hcached Hsettled.
  destruct (decide (segment ∈ _segments st)) as [Hs|Hs].
  { rewrite get_known by (by apply Hcached).
    destruct (Hsettled segment key Hs) as [|[? ?]]; [by left|by right]. }
  left. unfold get. rewrite (wf_unknown_cache segment st Hwf Hs).
  rewrite <- wf_resolve by done.
  rewrite resolveLayers_no_value by (intros; by apply wf_unknown_rawGet).
  destruct (decide (monolithic ∈ _segments st)) as [Hm|Hm].
  - destruct (Hcached monolithic Hm) as [mData HmData]. rewrite HmData. simpl.
    destruct (Hsettled monolithic key Hm) as [Hres|[Hc Hnone]].
    + rewrite wf_resolve by done. rewrite <- Hres.
      unfold cacheGet. by rewrite HmData.
    + rewrite resolveLayers_None by done.
      unfold cacheGet in Hc. by rewrite HmData in Hc.
  - rewrite (wf_unknown_cache monolithic st Hwf Hm). simpl.
    symmetry. apply resolveLayers_None; intros; by apply wf_unknown_rawGet.
Qed.

(** Segment isolation holds in a store whose cache is settled. *)
Lemma settled_segment_isolation layer segmentA segmentB key value layer' st :
  wf st → cached st → settled st →
  segmentA ≠ segmentB → (layer ≤ layer')%Z →
  is_Some (rawGet layer' segmentB key st) →
  (get segmentB key (set layer segmentA key value st)).1 =
  (get segmentB key st).1.
Proof.
  intros Hwf Hcached Hsettled Hne Hle Hown.
  pose proof (wf_rawGet_segment _ _ _ _ Hwf Hown) as HsB.
  pose proof (wf_rawGet_layer _ _ _ _ Hwf Hown) as HlB.
  destruct (set_spec layer segmentA key value st Hwf)
    as (Hwf' & Hcached' & Hraw & Hres & _ & Hl & _ & Hmono).
  set (st' := set layer segmentA key value st) in *.
  rewrite !get_known by auto. rewrite Hres by auto.
  destruct (Hsettled segmentB key HsB) as [->|[_ Hnone]];
    [|rewrite Hnone in Hown; by destruct Hown].
  assert (∀ layer0, rawGet layer0 segmentB key st' = rawGet layer0 segmentB key st)
    as HrawB.
  { intros. rewrite Hraw. by rewrite decide_False by naive_solver. }
  rewrite <- !wf_resolve by done.
  apply (resolveLayers_above _ _ _ _ _ _ layer');
    [apply Hwf'|apply Hwf|apply Hl; by right|done|..].
  - unfold hit. rewrite HrawB. destruct Hown as [v ->]. done.
  - unfold hit. destruct Hown as [v ->]. done.
  - intros layer0 Hge. rewrite Hl. split; [|by right].
    intros [->|]; [|done]. by replace layer with layer' by lia.
  - intros layer0 Hge. unfold hit. rewrite HrawB.
    destruct (rawGet layer0 segmentB key st) eqn:HB; [done|].
    rewrite Hraw. case_decide as Heq; [|done].
    destruct Heq as (-> & _ & _). replace layer with layer' in HB by lia.
    rewrite HB in Hown. by destruct Hown.
Qed.

End settled_cache.

Section without_monolithic_clear.

Context {Value : Type}.
Implicit Types (layer : Z) (segment : Segment) (key : string).
Implicit Types (ops : list (Op Value)).

(** X18.  As long as the monolithic segment has not been cleared, [get]
    returns the resolved value, except for a known segment that has no
    value of its own for the key. *)
Lemma get_resolved_or_unpopulated ops segment key :
  Forall (λ op, op ≠ OpDeleteSegmentData monolithic) ops →
  let st := run ops in
  (get segment key st).1 = resolve segment key st ∨
  ((get segment key st).1 = None ∧ segment ∈ _segments st ∧
   ∀ layer, rawGet layer segment key st = None).
Proof.
  intros Hops. destruct (run_wf ops) as [Hwf Hcached].
  by apply settled_get, run_settled.
Qed.

(** X16.  As long as the monolithic segment has not been cleared, a write
    to one segment does not change what [get] returns for another segment
    that has its own value on an equal or higher layer. *)
Lemma segment_isolation ops layer segmentA segmentB key value layer' :
  Forall (λ op, op ≠ OpDeleteSegmentData monolithic) ops →
  segmentA ≠ segmentB → (layer ≤ layer')%Z →
  is_Some (rawGet layer' segmentB key (run ops)) →
  (get segmentB key (set layer segmentA key value (run ops))).1 =
  (get segmentB key (run ops)).1.
Proof.
  intros Hops. destruct (run_wf ops) as [Hwf Hcached].
  by apply settled_segment_isolation, run_settled.
Qed.

End without_monolithic_clear.

(** The scenario of the specification: layers 0 and 1, the higher layer
    wins, and deleting its value uncovers the lower one. *)
Example scenario_layers :
  let ops := [OpSet 0 (named "S") "k" "lo"; OpSet 1 (named "S") "k" "hi"] in
  (get (named "S") "k" (run ops)).1 = Some "hi" ∧
  (get (named "S") "k" (run (ops ++ [OpDelete 1 (named "S") "k"]))).1 = Some "lo".
Proof. by vm_compute. Qed.

(** * The claims *)

Section claims.

Context {Value : Type}.
Implicit Types (st : Core Value) (layer : Z) (segment : Segment) (key : string).
Implicit Types (op : Op Value) (ops : list (Op Value)).

(** X25.  Right after [set] or [delete] of a key, in a store reached by
    any sequence of core operations, the cache entry of that key is the
    value resolved from the raw store for every segment of the
    known-segments set and is absent for every other segment; [get] of
    that key then returns the resolved value for every segment. *)
Theorem cache_resolved_after_mutation ops layer segment key :
  ∀ st',
    (st' = delete layer segment key (run ops) ∨
     ∃ value, st' = set layer segment key value (run ops)) →
    ∀ segment',
      cacheGet segment' key st' =
        (if decide (segment' ∈ _segments st')
         then resolve segment' key st' else None) ∧
      (get segment' key st').1 = resolve segment' key st'.
Proof.
  intros st' Hst' segment'.
  destruct (run_wf ops) as [Hwf Hcached].
  assert (wf st' ∧ cached st' ∧
          (∀ s, s ∈ _segments st' → cacheGet s key st' = resolve s key st'))
    as (Hwf' & Hcached' & Hres).
  { destruct Hst' as [->|[value ->]].
    - by destruct (delete_spec layer segment key (run ops) Hwf)
        as (? & ? & _ & ? & _).
    - by destruct (set_spec layer segment key value (run ops) Hwf)
        as (? & ? & _ & ? & _). }
  split; [|by apply get_resolved].
  destruct (decide (segment' ∈ _segments st')) as [Hs|Hs]; [by apply Hres|].
  unfold cacheGet. by rewrite (wf_unknown_cache segment' st' Hwf' Hs).
Qed.

(** C4, as the code has it.  After [delete] the raw store has no entry for
    [(layer, segment, key)] and every other entry is the one from before
    the call; the layer is in the layer list, the segment is in the
    known-segments set and has a cache map, whether or not they were there
    before. *)
Theorem delete_raw_store_effect ops layer segment key :
  let st := run ops in
  let st' := delete layer segment key st in
  (∀ layer' segment' key',
     rawGet layer' segment' key' st' =
     if decide (layer' = layer ∧ segment' = segment ∧ key' = key)
     then None else rawGet layer' segment' key' st) ∧
  layer ∈ _layers st' ∧
  segment ∈ _segments st' ∧
  is_Some (_topLevelCache st' !! segment).
Proof.
  destruct (run_wf ops) as [Hwf Hcached].
  destruct (delete_spec layer segment key (run ops) Hwf)
    as (Hwf' & Hcached' & Hraw & _ & _ & Hl & Hs & _).
  cbv zeta. split_and!; [done| |done|by apply Hcached'].
  apply Hl. by left.
Qed.

(** C6, as the code has it.  [deleteSegmentData] leaves the segment without a map on any
    layer, without a cache map and out of the known-segments set, so [has]
    is false for every key, and it touches no raw store entry of another
    segment; a second call, and a call for a segment the store does not
    know, change nothing; and a value written to the segment right
    afterwards is stored and present. *)
Theorem deleteSegmentData_clears_segment ops segment :
  let st := run ops in
  let st' := deleteSegmentData segment st in
  (∀ layer, rawSegment layer segment st' = None) ∧
  (∀ layer segment' key,
     rawGet layer segment' key st' =
     if decide (segment' = segment) then None else rawGet layer segment' key st) ∧
  _topLevelCache st' !! segment = None ∧
  (segment ∉ _segments st') ∧
  (∀ key, (has segment key st').1 = false) ∧
  deleteSegmentData segment st' = st' ∧
  (segment ∉ _segments st → st' = st) ∧
  (∀ layer key value,
     let st'' := set layer segment key value st' in
     rawGet layer segment key st'' = Some value ∧
     (has segment key st'').1 = true ∧
     segment ∈ _segments st'').
Proof.
  destruct (run_wf ops) as [Hwf Hcached].
  pose proof (deleteSegmentData_wf segment (run ops) Hwf) as Hwf'.
  assert (segment ∉ _segments (deleteSegmentData segment (run ops))) as Hs.
  { simpl. rewrite Set_delete_elem_of. tauto. }
  cbv zeta. split_and!.
  - intros layer. rewrite deleteSegmentData_rawSegment. by rewrite decide_True.
  - intros. apply deleteSegmentData_rawGet.
  - apply lookup_delete_eq.
  - done.
  - intros key. unfold has. simpl. by rewrite lookup_delete_eq.
  - by apply deleteSegmentData_unknown.
  - by apply deleteSegmentData_unknown.
  - intros layer key value.
    destruct (set_spec layer segment key value _ Hwf')
      as (Hwf'' & _ & Hraw & Hres & _ & Hl & Hin & _).
    assert (rawGet layer segment key
              (set layer segment key value (deleteSegmentData segment (run ops)))
            = Some value) as Hv.
    { rewrite Hraw. by rewrite decide_True. }
    split_and!; [done| |done].
    apply has_cacheGet. rewrite Hres, <- wf_resolve by done.
    apply (resolveLayers_is_Some _ layer); [|by rewrite Hv].
    apply Hl. by left.
Qed.

(** C7.  [has] is true exactly when the segment's own cache map has an
    entry for the key; and a segment that was never written to reads the
    monolithic segment's value through [get] while [has] is false. *)
Theorem has_segment_exact :
  (∀ st segment key,
     (has segment key st).1 = true ↔ is_Some (cacheGet segment key st)) ∧
  (∀ value : Value,
     let st := run [OpSet 0 monolithic "k" value] in
     (get (named "S") "k" st).1 = Some value ∧
     (has (named "S") "k" st).1 = false).
Proof.
  split.
  - intros st segment key. apply has_cacheGet.
  - intros value. by vm_compute.
Qed.

(** C8.  In every store reached by a sequence of operations the layer list
    is strictly descending, without duplicates, holds exactly the layers of
    the raw store (it is their sorted enumeration), and these are exactly
    the layers some [set] or [delete] so far has written to; no operation
    removes a layer from it. *)
Theorem layers_sorted_descending ops :
  let st := run ops in
  StronglySorted descending (_layers st) ∧
  NoDup (_layers st) ∧
  (∀ layer, layer ∈ _layers st ↔ is_Some (_data st !! layer)) ∧
  _layers st = sort reverseNumeric (keys (_data st)) ∧
  (∀ layer, layer ∈ _layers st ↔ ∃ op, op ∈ ops ∧ op_layer op = Some layer) ∧
  (∀ op layer, layer ∈ _layers st → layer ∈ _layers (step st op)).
Proof.
  destruct (run_wf ops) as [Hwf _]. cbv zeta. split_and!.
  - apply Hwf.
  - apply descending_NoDup, Hwf.
  - apply Hwf.
  - by apply wf_layers_sort.
  - apply run_layers.
  - intros op layer Hl. apply step_layers; [done|by right].
Qed.

(** C9.  When a first [setValidators] for a key without the replace
    directive has succeeded, a second one fails with an error, leaves the
    store as it was, the core included, and the validators of the key are
    still the ones of the first call. *)
Theorem setValidators_twice_fails
    (ls : LayeredStorage.Store Value) key
    (validators1 validators2 : list (LayeredStorage.Validator Value)) :
  (LayeredStorage.setValidators key validators1 false ls).1 = None →
  let ls1 := (LayeredStorage.setValidators key validators1 false ls).2 in
  let second := LayeredStorage.setValidators key validators2 false ls1 in
  second.1 = Some (LayeredStorage.DuplicateValidatorRegistration key) ∧
  second.2 = ls1 ∧
  LayeredStorage._validators second.2 !! key = Some validators1 ∧
  LayeredStorage._core second.2 = LayeredStorage._core ls.
Proof.
  unfold LayeredStorage.setValidators. simpl.
  destruct (bool_decide (is_Some (LayeredStorage._validators ls !! key))) eqn:Hreg;
    simpl; [done|]. intros _.
  rewrite bool_decide_eq_true_2 by (rewrite lookup_insert_eq; eauto).
  simpl. by rewrite lookup_insert_eq.
Qed.

(** C10.  [get] and [has] return the store they were called on, and asking
    again gives the same answer. *)
Theorem get_has_pure st segment key :
  (get segment key st).2 = st ∧
  (has segment key st).2 = st ∧
  (get segment key (get segment key st).2).1 = (get segment key st).1 ∧
  (has segment key (has segment key st).2).1 = (has segment key st).1 ∧
  (has segment key (get segment key st).2).1 = (has segment key st).1 ∧
  (get segment key (has segment key st).2).1 = (get segment key st).1.
Proof.
  assert ((get segment key st).2 = st) as Hget.
  { unfold get. destruct (_topLevelCache st !! segment); [done|].
    by destruct (_topLevelCache st !! monolithic). }
  assert ((has segment key st).2 = st) as Hhas.
  { unfold has. by destruct (_topLevelCache st !! segment). }
  by rewrite Hget, Hhas.
Qed.

End claims.

(** ** The claims at concrete stores *)

(** C1 at the stores [segment_written_later] and [monolithic_cleared]: a
    segment of the known-segments set, with its cache map, whose cache
    entry is not the value resolved from the raw store: missing in the
    first store, a deleted value of the monolithic segment in the
    second. *)
Theorem cache_stale_for_known_segment :
  let st1 := run segment_written_later in
  let st2 := run monolithic_cleared in
  (named "S" ∈ _segments st1 ∧
   is_Some (_topLevelCache st1 !! named "S") ∧
   cacheGet (named "S") "k" st1 = None ∧
   resolve (named "S") "k" st1 = Some "v") ∧
  (named "B" ∈ _segments st2 ∧
   is_Some (_topLevelCache st2 !! named "B") ∧
   cacheGet (named "B") "k" st2 = Some "m" ∧
   resolve (named "B") "k" st2 = Some "b").
Proof.
  cbv zeta.
  assert (_segments (run segment_written_later) = [monolithic; named "S"])
    as Hs1 by (by vm_compute).
  assert (_segments (run monolithic_cleared) = [named "B"])
    as Hs2 by (by vm_compute).
  rewrite Hs1, Hs2. split; split_and!.
  - apply elem_of_cons. right. by apply list_elem_of_singleton.
  - exists {["k2" := "w"]}. by vm_compute.
  - by vm_compute.
  - by vm_compute.
  - by apply list_elem_of_singleton.
  - exists {["k" := "m"]}. by vm_compute.
  - by vm_compute.
  - by vm_compute.
Qed.

(** X25 at a write of a second key. *)
Lemma cache_resolved_after_mutation_witness :
  let ops : list (Op string) := [OpSet 0 monolithic "k" "v"] in
  let st' := set 0 (named "S") "k2" "w" (run ops) in
  (st' = delete 0 (named "S") "k2" (run ops) ∨
   ∃ value, st' = set 0 (named "S") "k2" value (run ops)) ∧
  ∀ segment',
    cacheGet segment' "k2" st' =
      (if decide (segment' ∈ _segments st')
       then resolve segment' "k2" st' else None) ∧
    (get segment' "k2" st').1 = resolve segment' "k2" st'.
Proof.
  split.
  - right. exists "w". reflexivity.
  - apply (cache_resolved_after_mutation
             [OpSet 0 monolithic "k" "v"] 0 (named "S") "k2").
    right. exists "w". reflexivity.
Defined.

(** C2 at the store [segment_written_later]: the key was set for the
    monolithic segment on layer 0 and never deleted, the segment itself
    never had the key, and [get] of the segment returns nothing. *)
Theorem get_misses_monolithic_value :
  let st := run segment_written_later in
  rawGet 0 monolithic "k" st = Some "v" ∧
  resolve (named "S") "k" st = Some "v" ∧
  (get (named "S") "k" st).1 = None.
Proof. by vm_compute. Qed.

(** C3 at the store [segment_written_later]: the segment has no value for
    the key on any layer, the monolithic segment reads its value, the
    segment reads nothing. *)
Theorem monolithic_fallback_lost :
  let st := run segment_written_later in
  (∀ layer, rawGet layer (named "S") "k" st = None) ∧
  (get (named "S") "k" st).1 = None ∧
  (get monolithic "k" st).1 = Some "v".
Proof.
  split; [|by vm_compute].
  intros layer. destruct (decide (layer = 0%Z)) as [->|Hne]; [by vm_compute|].
  unfold rawGet.
  destruct (_data (run segment_written_later) !! layer) as [lData|] eqn:Hl;
    [|done].
  assert (layer ∈ _layers (run segment_written_later)) as Hin.
  { apply run_wf. by rewrite Hl. }
  assert (_layers (run segment_written_later) = [0%Z]) as Hlayers
    by (by vm_compute).
  rewrite Hlayers in Hin. by apply list_elem_of_singleton in Hin.
Qed.

(** C4, as stated, fails on the fresh store: the entry is absent, and the
    call creates the layer, two segments with their maps and cache maps. *)
Lemma delete_absent_entry_creates_structure :
  let st : Core string := run [] in
  let st' := delete 0 (named "S") "k" st in
  rawGet 0 (named "S") "k" st = None ∧
  st' ≠ st ∧
  _layers st = [] ∧ _layers st' = [0%Z] ∧
  _segments st = [] ∧ _segments st' = [named "S"; monolithic] ∧
  rawSegment 0 (named "S") st = None ∧ rawSegment 0 (named "S") st' = Some ∅ ∧
  _topLevelCache st !! named "S" = None ∧
  _topLevelCache st' !! named "S" = Some ∅.
Proof.
  cbv zeta. split_and!; by vm_compute.
Qed.

(** C5 at the store [monolithic_cleared]: segment B has its own value on
    layer 0, and a write to segment A on layer 0 changes what [get] returns
    for B. *)
Theorem stale_cache_breaks_segment_isolation :
  let st := run monolithic_cleared in
  rawGet 0 (named "B") "k" st = Some "b" ∧
  (get (named "B") "k" st).1 = Some "m" ∧
  (get (named "B") "k" (set 0 (named "A") "k" "v" st)).1 = Some "b".
Proof. by vm_compute. Qed.

(** C6, as stated, fails for a known segment that is already empty: the
    segment's only map holds no entry, its cache holds the monolithic
    segment's value, and clearing it changes the store and turns [has]
    from true to false. *)
Lemma deleteSegmentData_already_empty_segment :
  let st : Core string :=
    run [OpSet 0 (named "S") "k2" "w"; OpSet 0 monolithic "k" "v";
         OpDelete 0 (named "S") "k2"] in
  let st' := deleteSegmentData (named "S") st in
  _layers st = [0%Z] ∧
  rawSegment 0 (named "S") st = Some ∅ ∧
  _segments st = [named "S"; monolithic] ∧
  _segments st' = [monolithic] ∧
  st' ≠ st ∧
  (has (named "S") "k" st).1 = true ∧
  (has (named "S") "k" st').1 = false.
Proof.
  cbv zeta. split_and!; by vm_compute.
Qed.

(** C6, as the code has it, at a store that does not know the segment. *)
Lemma deleteSegmentData_clears_segment_witness :
  let st : Core string := run [OpSet 0 monolithic "k" "v"] in
  (named "S" ∉ _segments st) ∧ deleteSegmentData (named "S") st = st.
Proof.
  split.
  - vm_compute. intros H. apply list_elem_of_singleton in H. discriminate H.
  - apply (deleteSegmentData_clears_segment
             [OpSet 0 monolithic "k" "v"] (named "S")).
    vm_compute. intros H. apply list_elem_of_singleton in H. discriminate H.
Defined.

(** C9 on a new store, with the validators of the test "Setting
    validators twice". *)
Lemma setValidators_twice_fails_witness :
  let ls : LayeredStorage.Store string := LayeredStorage.new in
  let validators1 : list (LayeredStorage.Validator string) :=
    [λ _, Some "it's not valid"] in
  let validators2 : list (LayeredStorage.Validator string) := [λ _, None] in
  (LayeredStorage.setValidators "test.fail" validators1 false ls).1 = None ∧
  let ls1 := (LayeredStorage.setValidators "test.fail" validators1 false ls).2 in
  let second := LayeredStorage.setValidators "test.fail" validators2 false ls1 in
  second.1 = Some (LayeredStorage.DuplicateValidatorRegistration "test.fail") ∧
  second.2 = ls1 ∧
  LayeredStorage._validators second.2 !! "test.fail" = Some validators1 ∧
  LayeredStorage._core second.2 = LayeredStorage._core ls.
Proof.
  split.
  - reflexivity.
  - apply (setValidators_twice_fails LayeredStorage.new "test.fail"
             [λ _, Some "it's not valid"] [λ _, None]).
    reflexivity.
Defined.

(** * Further properties of the core *)

Section getLSData_more.

Context {Value : Type}.
Implicit Types (st : Core Value) (layer : Z) (segment : Segment) (key : string).

(** Where the map exists, [_getLSData] returns it and changes nothing. *)
Lemma getLSData_existing layer segment st lsData :
  rawSegment layer segment st = Some lsData →
  _getLSData layer segment st = (lsData, st).
Proof.
  unfold rawSegment, _getLSData.
  destruct (_data st !! layer) as [lData|]; simpl; [|done].
  by intros ->.
Qed.

Lemma getLSData_created layer segment st :
  rawSegment layer segment (_getLSData layer segment st).2 =
  Some (default ∅ (rawSegment layer segment st)).
Proof. rewrite getLSData_rawSegment. by rewrite decide_True. Qed.

Lemma extends_refl st : extends st st.
Proof. by split. Qed.

Lemma extends_trans st1 st2 st3 :
  extends st1 st2 → extends st2 st3 → extends st1 st3.
Proof.
  intros [Hm1 Hr1] [Hm2 Hr2]. split.
  - intros. by apply Hm2, Hm1.
  - intros. by rewrite Hr2, Hr1.
Qed.

Lemma getLSData_extends layer segment st :
  extends st (_getLSData layer segment st).2.
Proof.
  split.
  - intros layer' segment' Hs. rewrite getLSData_rawSegment.
    case_decide; [done|done].
  - intros. apply getLSData_rawGet.
Qed.

Lemma extends_same_data st st' : _data st' = _data st → extends st st'.
Proof.
  intros Hd. split; intros; unfold rawSegment, rawGet; by rewrite Hd.
Qed.

Lemma layersLoop_extends layers segment key st :
  extends st (layersLoop layers segment key st).
Proof.
  revert st. induction layers as [|layer layers IH]; intros st;
    [apply extends_refl|].
  rewrite layersLoop_cons. simpl.
  pose proof (getLSData_extends layer segment st) as H1.
  pose proof (getLSData_extends layer monolithic (_getLSData layer segment st).2)
    as H2.
  destruct (rawGet layer segment key st).
  { eapply extends_trans; [exact H1|]. by apply extends_same_data. }
  destruct (rawGet layer monolithic key st).
  { eapply extends_trans; [exact H1|]. eapply extends_trans; [exact H2|].
    by apply extends_same_data. }
  eapply extends_trans; [exact H1|]. eapply extends_trans; [exact H2|]. apply IH.
Qed.

Lemma walked_extends layers segment key st st' :
  extends st st' → walked layers segment key st → walked layers segment key st'.
Proof.
  intros [Hm Hr]. induction layers as [|layer layers IH]; [done|].
  simpl. rewrite !Hr. intros [H1 H2]. split; [by apply Hm|].
  intros Hs. destruct (H2 Hs) as [H3 H4]. split; [by apply Hm|].
  intros Hmono. by apply IH, H4.
Qed.

Lemma layersLoop_walked layers segment key st :
  walked layers segment key (layersLoop layers segment key st).
Proof.
  revert st. induction layers as [|layer layers IH]; intros st; [done|].
  pose proof (layersLoop_extends (layer :: layers) segment key st) as Hext.
  pose proof (layersLoop_rawGet (layer :: layers) segment key st) as Hraw.
  revert Hext Hraw. rewrite layersLoop_cons. cbv zeta.
  set (st1 := (_getLSData layer segment st).2).
  set (st2 := (_getLSData layer monolithic st1).2).
  pose proof (getLSData_created layer segment st) as Hc1. fold st1 in Hc1.
  pose proof (getLSData_created layer monolithic st1) as Hc2. fold st2 in Hc2.
  pose proof (getLSData_extends layer monolithic st1) as He2. fold st2 in He2.
  destruct (rawGet layer segment key st) eqn:H1.
  { intros Hext Hraw. simpl. split.
    - unfold rawSegment. simpl. fold (rawSegment layer segment st1).
      by rewrite Hc1.
    - rewrite Hraw, H1. done. }
  destruct (rawGet layer monolithic key st) eqn:H2.
  { intros Hext Hraw. simpl. split.
    - unfold rawSegment. simpl. fold (rawSegment layer segment st2).
      apply He2. by rewrite Hc1.
    - intros _. split.
      + unfold rawSegment. simpl. fold (rawSegment layer monolithic st2).
        by rewrite Hc2.
      + rewrite Hraw, H2. done. }
  intros Hext Hraw. simpl.
  pose proof (layersLoop_extends layers segment key st2) as [Hm _].
  split; [apply Hm, He2; by rewrite Hc1|].
  intros _. split; [apply Hm; by rewrite Hc2|].
  intros _. apply IH.
Qed.

End getLSData_more.

Section updateCache_again.

Context {Value : Type}.
Implicit Types (st : Core Value) (layer : Z) (segment : Segment) (key : string).

(** Where the maps on the way exist, the layer loop only writes the cache
    entry. *)
Lemma layersLoop_fixed layers segment key st :
  walked layers segment key st →
  layersLoop layers segment key st =
  match resolveLayers layers segment key st with
  | Some value => sCache_set segment key value st
  | None => st
  end.
Proof.
  induction layers as [|layer layers IH]; [done|].
  intros [[lsData Hs] Hw]. rewrite layersLoop_cons. cbv zeta.
  rewrite (getLSData_existing _ _ _ _ Hs). simpl.
  destruct (rawGet layer segment key st); [done|].
  destruct Hw as [[lmData Hm] Hw]; [done|].
  rewrite (getLSData_existing _ _ _ _ Hm). simpl.
  destruct (rawGet layer monolithic key st); [done|].
  by apply IH, Hw.
Qed.

Lemma walked_same_data layers segment key st st' :
  _data st' = _data st →
  walked layers segment key st → walked layers segment key st'.
Proof. intros Hd. by apply walked_extends, extends_same_data. Qed.

(** The loop body of a segment whose maps exist and whose cache entry is
    the resolved one changes nothing. *)
Lemma segmentsLoop_body_fixed segment key st :
  walked (_layers st) segment key st →
  is_Some (_topLevelCache st !! segment) →
  cacheGet segment key st = resolveLayers (_layers st) segment key st →
  segmentsLoop_body segment key st = st.
Proof.
  intros Hw [sCache Hc] Hres. unfold segmentsLoop_body.
  rewrite sCache_prepared.
  set (st2 := mkCore _ _ _ _).
  rewrite layersLoop_fixed by (by apply (walked_same_data _ _ _ st)).
  rewrite (resolveLayers_ext _ _ _ st st2) by done.
  change (_layers st2) with (_layers st). rewrite <- Hres.
  unfold cacheGet. rewrite Hc. simpl.
  destruct st as [data layers segments cache]. simpl in *.
  destruct (sCache !! key) as [value|] eqn:Hv; unfold st2, sCache_set; simpl;
    rewrite Hc; simpl; f_equal.
  - rewrite alter_insert_eq, insert_delete_eq. rewrite (insert_id sCache) by done.
    by apply insert_id.
  - rewrite delete_id by done. by apply insert_id.
Qed.

Lemma segmentsLoop_fixed key st fuel i :
  (∀ segment, segment ∈ _segments st → segmentsLoop_body segment key st = st) →
  segmentsLoop fuel i key st = st.
Proof.
  intros Hfix. revert i. induction fuel as [|fuel IH]; intros i; simpl;
    destruct (_segments st !! i) as [segment|] eqn:Hi; try done.
  rewrite Hfix by (apply list_elem_of_lookup; eauto). apply IH.
Qed.

Lemma segmentsLoop_body_extends segment key st :
  extends st (segmentsLoop_body segment key st).
Proof.
  unfold segmentsLoop_body. eapply extends_trans; [|apply layersLoop_extends].
  apply extends_same_data. rewrite sCache_prepared. done.
Qed.

Lemma segmentsLoop_body_walked segment key st :
  walked (_layers st) segment key (segmentsLoop_body segment key st).
Proof.
  unfold segmentsLoop_body.
  replace (_layers st)
    with (_layers (sCache_delete segment key (sCache_get_or_create segment st)))
    by (by rewrite sCache_prepared).
  apply layersLoop_walked.
Qed.

Lemma segmentsLoop_walked key fuel : ∀ i st,
  wf st →
  length (_segments st) + (if decide (monolithic ∈ _segments st) then 0 else 1)
    ≤ fuel + i →
  (∀ j segment, j < i → _segments st !! j = Some segment →
     walked (_layers st) segment key st) →
  let st' := segmentsLoop fuel i key st in
  extends st st' ∧
  ∀ segment, segment ∈ _segments st' → walked (_layers st') segment key st'.
Proof.
  induction fuel as [|fuel IH]; intros i st Hwf Hfuel Hdone; simpl;
    destruct (_segments st !! i) as [segment|] eqn:Hi.
  - apply lookup_lt_Some in Hi. destruct (decide (monolithic ∈ _segments st)); lia.
  - split; [apply extends_refl|].
    intros segment [j Hj]%list_elem_of_lookup. apply (Hdone j); [|done].
    apply lookup_lt_Some in Hj. apply lookup_ge_None in Hi. lia.
  - assert (segment ∈ _segments st) as Hs by (apply list_elem_of_lookup; eauto).
    destruct (segmentsLoop_body_spec segment key st Hwf Hs)
      as (Hwf1 & _ & Hl1 & Hg1 & _).
    pose proof (segmentsLoop_body_extends segment key st) as He1.
    pose proof (segmentsLoop_body_walked segment key st) as Hw1.
    set (st1 := segmentsLoop_body segment key st) in *.
    destruct (IH (S i) st1) as [He' Hw']; [done|..].
    + pose proof (grows_bound _ _ Hg1). lia.
    + intros j segment' Hj Hj'. rewrite Hl1.
      destruct (decide (j = i)) as [->|Hne].
      * pose proof (grows_lookup _ _ _ _ Hg1 Hi) as Hi1.
        replace segment' with segment by congruence. done.
      * assert (j < length (_segments st)) as Hlt
          by (apply lookup_lt_Some in Hi; lia).
        apply lookup_lt_is_Some in Hlt as [segment'' Hj0].
        pose proof (grows_lookup _ _ _ _ Hg1 Hj0).
        replace segment' with segment'' by congruence.
        apply (walked_extends _ _ _ st); [done|].
        apply (Hdone j); [lia|done].
    + split; [by eapply extends_trans|done].
  - split; [apply extends_refl|].
    intros segment [j Hj]%list_elem_of_lookup. apply (Hdone j); [|done].
    apply lookup_lt_Some in Hj. apply lookup_ge_None in Hi. lia.
Qed.

Lemma updateCache_extends key st : wf st → extends st (_updateCache key st).
Proof.
  intros Hwf. apply segmentsLoop_walked; [done| |intros; lia].
  destruct (decide (monolithic ∈ _segments st)); lia.
Qed.

(** Running [_updateCache] a second time for the same key changes
    nothing. *)
Lemma updateCache_again key st :
  wf st → _updateCache key (_updateCache key st) = _updateCache key st.
Proof.
  intros Hwf.
  destruct (updateCache_spec key st Hwf) as (Hwf' & _ & _ & _ & Hok & _).
  assert (∀ segment, segment ∈ _segments (_updateCache key st) →
            walked (_layers (_updateCache key st)) segment key
                   (_updateCache key st)) as Hw.
  { apply segmentsLoop_walked; [done| |intros; lia].
    destruct (decide (monolithic ∈ _segments st)); lia. }
  set (st' := _updateCache key st) in *. unfold _updateCache at 1.
  apply segmentsLoop_fixed. intros segment Hs.
  destruct (Hok segment Hs). by apply segmentsLoop_body_fixed; [apply Hw|..].
Qed.

End updateCache_again.

Section composition.

Context {Value : Type}.
Implicit Types (st : Core Value) (layer : Z) (segment : Segment) (key : string).
Implicit Types (op : Op Value) (ops : list (Op Value)).

(** Resolution depends on the layers present and on the entries of the
    segment and of the monolithic segment only. *)
Lemma resolve_congr segment key st1 st2 :
  wf st1 → wf st2 →
  (∀ layer, layer ∈ _layers st1 ↔ layer ∈ _layers st2) →
  (∀ layer, rawGet layer segment key st1 = rawGet layer segment key st2) →
  (∀ layer, rawGet layer monolithic key st1 = rawGet layer monolithic key st2) →
  resolve segment key st1 = resolve segment key st2.
Proof.
  intros Hwf1 Hwf2 Hl Hs Hm. rewrite <- !wf_resolve by done.
  apply resolveLayers_same_hits; [apply Hwf1|apply Hwf2|..].
  - intros layer Hin _. by apply Hl.
  - intros layer Hin _. by apply Hl.
  - intros layer _ _. unfold hit. by rewrite Hs, Hm.
Qed.

Lemma set_get layer segment key value st segment' :
  wf st →
  (get segment' key (set layer segment key value st)).1 =
  resolve segment' key (set layer segment key value st).
Proof.
  intros Hwf.
  destruct (set_spec layer segment key value st Hwf) as (? & ? & _ & ? & _).
  by apply get_resolved.
Qed.

Lemma delete_get layer segment key st segment' :
  wf st →
  (get segment' key (delete layer segment key st)).1 =
  resolve segment' key (delete layer segment key st).
Proof.
  intros Hwf.
  destruct (delete_spec layer segment key st Hwf) as (? & ? & _ & ? & _).
  by apply get_resolved.
Qed.

Lemma lsData_delete_absent layer segment key st :
  rawGet layer segment key st = None → lsData_delete layer segment key st = st.
Proof.
  intros Hnone. destruct st as [data layers segments cache].
  unfold lsData_delete, rawGet in *. simpl in *. f_equal.
  apply alter_id. intros lData HlData. rewrite HlData in Hnone. simpl in Hnone.
  apply alter_id. intros lsData HlsData. rewrite HlsData in Hnone.
  by apply delete_id.
Qed.

Lemma lsData_set_same layer segment key value st :
  rawGet layer segment key st = Some value →
  lsData_set layer segment key value st = st.
Proof.
  intros Hv. destruct st as [data layers segments cache].
  unfold lsData_set, rawGet in *. simpl in *. f_equal.
  apply alter_id. intros lData HlData. rewrite HlData in Hv. simpl in Hv.
  apply alter_id. intros lsData HlsData. rewrite HlsData in Hv.
  by apply insert_id.
Qed.

Lemma getLSData_existing_state layer segment st :
  is_Some (rawSegment layer segment st) → (_getLSData layer segment st).2 = st.
Proof. intros [lsData Hs]. by rewrite (getLSData_existing _ _ _ _ Hs). Qed.

(** The segment map that a mutation asked [_getLSData] for is still there
    when the mutation returns. *)
Lemma set_rawSegment layer segment key value st :
  wf st → is_Some (rawSegment layer segment (set layer segment key value st)).
Proof.
  intros Hwf. rewrite set_eq.
  apply updateCache_extends; [by apply lsData_set_wf, getLSData_wf|].
  apply lsData_set_rawSegment. by rewrite getLSData_created.
Qed.

Lemma delete_rawSegment layer segment key st :
  wf st → is_Some (rawSegment layer segment (delete layer segment key st)).
Proof.
  intros Hwf. rewrite delete_eq.
  apply updateCache_extends; [by apply lsData_delete_wf, getLSData_wf|].
  apply lsData_delete_rawSegment. by rewrite getLSData_created.
Qed.

Lemma set_again layer segment key value st :
  wf st →
  set layer segment key value (set layer segment key value st) =
  set layer segment key value st.
Proof.
  intros Hwf.
  pose proof (set_rawSegment layer segment key value st Hwf) as Hs.
  destruct (set_spec layer segment key value st Hwf) as (_ & _ & Hraw & _).
  rewrite (set_eq _ _ _ _ (set layer segment key value st)).
  rewrite getLSData_existing_state by done.
  rewrite lsData_set_same by (rewrite Hraw; by rewrite decide_True).
  rewrite set_eq. apply updateCache_again.
  by apply lsData_set_wf, getLSData_wf.
Qed.

Lemma delete_again layer segment key st :
  wf st →
  delete layer segment key (delete layer segment key st) =
  delete layer segment key st.
Proof.
  intros Hwf.
  pose proof (delete_rawSegment layer segment key st Hwf) as Hs.
  destruct (delete_spec layer segment key st Hwf) as (_ & _ & Hraw & _).
  rewrite (delete_eq _ _ _ (delete layer segment key st)).
  rewrite getLSData_existing_state by done.
  rewrite lsData_delete_absent by (rewrite Hraw; by rewrite decide_True).
  rewrite delete_eq. apply updateCache_again.
  by apply lsData_delete_wf, getLSData_wf.
Qed.

(** The segments a step can add to the known-segments set. *)
Lemma step_segments st op segment :
  wf st → segment ∈ _segments (step st op) →
  segment ∈ _segments st ∨ segment = op_segment op ∨ segment = monolithic.
Proof.
  intros Hwf.
  assert (∀ st1 st', grows (_segments st1) (_segments st') →
            (∀ s, s ∈ _segments st1 → s ∈ _segments st ∨ s = op_segment op) →
            segment ∈ _segments st' →
            segment ∈ _segments st ∨ segment = op_segment op ∨
            segment = monolithic) as Hgrow.
  { intros st1 st' [->|[_ ->]] H1.
    - intros ?%H1. tauto.
    - intros [Hin|Hin]%elem_of_app.
      + apply H1 in Hin. tauto.
      + apply list_elem_of_singleton in Hin. tauto. }
  destruct op as [layer segment0 key value|layer segment0 key|segment0]; simpl.
  - rewrite set_eq.
    apply (Hgrow (lsData_set layer segment0 key value
                    (_getLSData layer segment0 st).2)).
    + apply updateCache_spec. by apply lsData_set_wf, getLSData_wf.
    + intros s. simpl. rewrite getLSData_segments.
      destruct (rawSegment layer segment0 st); [by left|].
      rewrite Set_add_elem_of. tauto.
  - rewrite delete_eq.
    apply (Hgrow (lsData_delete layer segment0 key
                    (_getLSData layer segment0 st).2)).
    + apply updateCache_spec. by apply lsData_delete_wf, getLSData_wf.
    + intros s. simpl. rewrite getLSData_segments.
      destruct (rawSegment layer segment0 st); [by left|].
      rewrite Set_add_elem_of. tauto.
  - intros [? _]%Set_delete_elem_of. by left.
Qed.

Lemma run_segments ops segment :
  segment ∈ _segments (run ops) →
  segment = monolithic ∨ ∃ op, op ∈ ops ∧ op_segment op = segment.
Proof.
  induction ops as [|op ops IH] using rev_ind.
  - by intros ?%elem_of_nil.
  - rewrite run_snoc. intros Hs.
    apply step_segments in Hs; [|apply run_wf].
    destruct Hs as [Hs|[->| ->]]; [| |by left].
    + destruct (IH Hs) as [|(op' & Hin & Hop)]; [by left|right].
      exists op'. split; [|done]. apply elem_of_app. by left.
    + right. exists op. split; [|done]. apply elem_of_app. right. by left.
Qed.

End composition.

Section reads.

Context {Value : Type}.
Implicit Types (st : Core Value) (layer : Z) (segment : Segment) (key : string).

Lemma has_eq segment key st :
  (has segment key st).1 = bool_decide (is_Some (cacheGet segment key st)).
Proof.
  unfold has, cacheGet. by destruct (_topLevelCache st !! segment).
Qed.

Lemma resolveLayers_is_Some_monolithic layers layer segment key st :
  layer ∈ layers → is_Some (rawGet layer monolithic key st) →
  is_Some (resolveLayers layers segment key st).
Proof.
  intros Hl Hv. induction layers as [|layer' layers IH];
    [by apply elem_of_nil in Hl|].
  simpl. destruct (rawGet layer' segment key st) eqn:H1; [done|].
  destruct (rawGet layer' monolithic key st) eqn:H2; [done|].
  apply elem_of_cons in Hl as [->|Hl]; [|by apply IH].
  rewrite H2 in Hv. by destruct Hv.
Qed.

(** In a settled cache, a write strictly below a layer on which a segment
    has its own value does not change what [get] returns for it. *)
Lemma settled_shadowed_write layer segmentA segmentB key value layer' st :
  wf st → cached st → settled st →
  (layer < layer')%Z →
  is_Some (rawGet layer' segmentB key st) →
  (get segmentB key (set layer segmentA key value st)).1 =
  (get segmentB key st).1.
Proof.
  intros Hwf Hcached Hsettled Hlt Hown.
  pose proof (wf_rawGet_segment _ _ _ _ Hwf Hown) as HsB.
  pose proof (wf_rawGet_layer _ _ _ _ Hwf Hown) as HlB.
  destruct (set_spec layer segmentA key value st Hwf)
    as (Hwf' & Hcached' & Hraw & Hres & _ & Hl & _ & Hmono).
  set (st' := set layer segmentA key value st) in *.
  rewrite !get_known by auto. rewrite Hres by auto.
  destruct (Hsettled segmentB key HsB) as [->|[_ Hnone]];
    [|rewrite Hnone in Hown; by destruct Hown].
  assert (∀ layer0 segment, (layer' ≤ layer0)%Z →
            rawGet layer0 segment key st' = rawGet layer0 segment key st)
    as Habove.
  { intros. rewrite Hraw. rewrite decide_False; [done|]. intros (-> & _). lia. }
  rewrite <- !wf_resolve by done.
  apply (resolveLayers_above _ _ _ _ _ _ layer');
    [apply Hwf'|apply Hwf|apply Hl; by right|done|..].
  - unfold hit. rewrite Habove by lia. destruct Hown as [v ->]. done.
  - unfold hit. destruct Hown as [v ->]. done.
  - intros layer0 Hge. rewrite Hl. split; [|by right].
    intros [->|]; [lia|done].
  - intros layer0 Hge. unfold hit. by rewrite !Habove.
Qed.

End reads.

Section extras.

Context {Value : Type}.
Implicit Types (st : Core Value) (layer : Z) (segment : Segment) (key : string).
Implicit Types (op : Op Value) (ops : list (Op Value)).

#[local] Existing Instances before_reverseNumeric_trans before_reverseNumeric_total.

(** X1.  [_getLSData] is idempotent, on any state: asking again for the
    map of the same layer and segment returns the same map and leaves the
    state of the first call as it is. *)
Theorem getLSData_twice layer segment st :
  _getLSData layer segment (_getLSData layer segment st).2 =
  _getLSData layer segment st.
Proof.
  rewrite (getLSData_existing _ _ _ _ (getLSData_created layer segment st)).
  rewrite <- getLSData_fst. by destruct (_getLSData layer segment st).
Qed.

(** X2.  [_getLSData] creates empty maps only, on any state: the map it
    returns holds the raw store entries of the layer and segment, no raw
    store entry and no cache entry changes, the map exists afterwards, and
    where it existed before the state is unchanged. *)
Theorem getLSData_creates_empty_maps layer segment st :
  let lsData := (_getLSData layer segment st).1 in
  let st' := (_getLSData layer segment st).2 in
  (∀ key, lsData !! key = rawGet layer segment key st) ∧
  (∀ layer' segment' key',
     rawGet layer' segment' key' st' = rawGet layer' segment' key' st) ∧
  _topLevelCache st' = _topLevelCache st ∧
  rawSegment layer segment st' = Some lsData ∧
  (rawSegment layer segment st = None → lsData = ∅) ∧
  (is_Some (rawSegment layer segment st) → st' = st).
Proof.
  cbv zeta. split_and!.
  - intros. apply getLSData_lookup.
  - intros. apply getLSData_rawGet.
  - apply getLSData_cache.
  - by rewrite getLSData_created, getLSData_fst.
  - intros Hnone. by rewrite getLSData_fst, Hnone.
  - apply getLSData_existing_state.
Qed.

(** X3.  In every store reached by a sequence of operations the
    known-segments set has no duplicates, its members are exactly the
    segments with a cache map, every segment with a map on some layer is
    in it, and each member is the monolithic segment or a segment some
    operation named. *)
Theorem known_segments_invariant ops :
  let st := run ops in
  NoDup (_segments st) ∧
  (∀ segment, segment ∈ _segments st ↔ is_Some (_topLevelCache st !! segment)) ∧
  (∀ layer segment,
     is_Some (rawSegment layer segment st) → segment ∈ _segments st) ∧
  (∀ segment, segment ∈ _segments st →
     segment = monolithic ∨ ∃ op, op ∈ ops ∧ op_segment op = segment).
Proof.
  destruct (run_wf ops) as [Hwf Hcached]. cbv zeta. split_and!.
  - apply Hwf.
  - intros segment. split; [apply Hcached|apply Hwf].
  - apply Hwf.
  - apply run_segments.
Qed.

(** X4.  Sorting with [reverseNumeric] keeps the elements and orders them
    from the highest to the lowest; without duplicates the order is
    strict. *)
Theorem sort_reverseNumeric (l : list Z) :
  sort reverseNumeric l ≡ₚ l ∧
  StronglySorted (λ a b, (b ≤ a)%Z) (sort reverseNumeric l) ∧
  (NoDup l → StronglySorted descending (sort reverseNumeric l)).
Proof.
  split_and!.
  - apply sort_Permutation.
  - assert (StronglySorted (before reverseNumeric) (sort reverseNumeric l)) as Hs
      by (apply StronglySorted_merge_sort; apply _).
    induction Hs as [|x l' Hs IH Hall]; constructor; [done|].
    eapply Forall_impl; [exact Hall|].
    intros y. unfold before, reverseNumeric. lia.
  - apply sort_descending.
Qed.

(** X5.  After [set], in a store reached by any sequence of operations,
    the entry is in the raw store, [has] is true for the segment and key,
    and [get] returns a value. *)
Theorem set_then_has ops layer segment key value :
  let st' := set layer segment key value (run ops) in
  rawGet layer segment key st' = Some value ∧
  (has segment key st').1 = true ∧
  is_Some (get segment key st').1.
Proof.
  destruct (run_wf ops) as [Hwf _].
  destruct (set_spec layer segment key value (run ops) Hwf)
    as (Hwf' & Hcached' & Hraw & Hres & _ & Hl & Hin & _).
  cbv zeta.
  assert (rawGet layer segment key (set layer segment key value (run ops))
          = Some value) as Hv by (rewrite Hraw; by rewrite decide_True).
  assert (is_Some (resolve segment key
                     (set layer segment key value (run ops)))) as Hsome.
  { rewrite <- wf_resolve by done.
    apply (resolveLayers_is_Some _ layer); [|by rewrite Hv].
    apply Hl. by left. }
  split_and!; [done| |].
  - apply has_cacheGet. by rewrite Hres.
  - by rewrite set_get.
Qed.

(** X6.  A value written on a layer above every layer that holds a value
    of the key, for the segment or for the monolithic segment, is the one
    [get] returns for the segment. *)
Theorem set_then_get_top ops layer segment key value :
  (∀ layer', (layer < layer')%Z →
     rawGet layer' segment key (run ops) = None ∧
     rawGet layer' monolithic key (run ops) = None) →
  (get segment key (set layer segment key value (run ops))).1 = Some value.
Proof.
  intros Habove. destruct (run_wf ops) as [Hwf _].
  destruct (set_spec layer segment key value (run ops) Hwf)
    as (Hwf' & _ & Hraw & _ & _ & Hl & _).
  rewrite set_get, <- wf_resolve by done.
  apply resolveLayers_Some; [apply Hwf'|].
  exists layer. split_and!.
  - apply Hl. by left.
  - unfold hit. rewrite Hraw. by rewrite decide_True.
  - intros layer' _ Hlt. destruct (Habove layer' Hlt) as [Hs Hm].
    unfold hit. rewrite !Hraw.
    rewrite !decide_False by (intros (-> & _); lia). by rewrite Hs, Hm.
Qed.

(** X7.  A value written to the monolithic segment is the one [get]
    returns for every segment that has no value of its own for the key on
    that layer or above, when the monolithic segment has none above. *)
Theorem monolithic_write_read_by_segments ops layer key value segment :
  (∀ layer', (layer ≤ layer')%Z →
     rawGet layer' segment key (run ops) = None) →
  (∀ layer', (layer < layer')%Z →
     rawGet layer' monolithic key (run ops) = None) →
  (get segment key (set layer monolithic key value (run ops))).1 = Some value.
Proof.
  intros Hseg Hmono. destruct (run_wf ops) as [Hwf _].
  destruct (set_spec layer monolithic key value (run ops) Hwf)
    as (Hwf' & _ & Hraw & _ & _ & Hl & _).
  rewrite set_get, <- wf_resolve by done.
  apply resolveLayers_Some; [apply Hwf'|].
  exists layer. split_and!.
  - apply Hl. by left.
  - unfold hit. rewrite !Hraw. rewrite (decide_True (P := _ ∧ monolithic = _ ∧ _))
      by done.
    case_decide; [done|]. by rewrite Hseg by lia.
  - intros layer' _ Hlt. unfold hit. rewrite !Hraw.
    rewrite !decide_False by (intros (-> & _); lia).
    by rewrite Hseg, Hmono by lia.
Qed.

(** X8.  The last write to an entry wins: [set] after a [set] or a
    [delete] of the same layer, segment and key leaves the raw store
    entries, and what [get] returns for the key for every segment, as
    [set] alone does. *)
Theorem set_overwrites ops layer segment key value value' :
  let st := run ops in
  let st1 := set layer segment key value st in
  let same st2 :=
    (∀ layer' segment' key',
       rawGet layer' segment' key' st2 = rawGet layer' segment' key' st1) ∧
    (∀ segment', (get segment' key st2).1 = (get segment' key st1).1) in
  same (set layer segment key value (set layer segment key value' st)) ∧
  same (set layer segment key value (delete layer segment key st)).
Proof.
  destruct (run_wf ops) as [Hwf _]. cbv zeta.
  destruct (set_spec layer segment key value (run ops) Hwf)
    as (Hwf1 & _ & Hraw1 & _ & _ & Hl1 & _).
  destruct (set_spec layer segment key value' (run ops) Hwf)
    as (Hwfs & _ & Hraws & _ & _ & Hls & _).
  destruct (delete_spec layer segment key (run ops) Hwf)
    as (Hwfd & _ & Hrawd & _ & _ & Hld & _).
  destruct (set_spec layer segment key value _ Hwfs)
    as (Hwf2 & _ & Hraw2 & _ & _ & Hl2 & _).
  destruct (set_spec layer segment key value _ Hwfd)
    as (Hwf3 & _ & Hraw3 & _ & _ & Hl3 & _).
  assert (∀ layer' segment' key',
            rawGet layer' segment' key'
              (set layer segment key value (set layer segment key value' (run ops)))
            = rawGet layer' segment' key' (set layer segment key value (run ops)))
    as Hr2.
  { intros. rewrite Hraw2, Hraw1, Hraws. by case_decide. }
  assert (∀ layer' segment' key',
            rawGet layer' segment' key'
              (set layer segment key value (delete layer segment key (run ops)))
            = rawGet layer' segment' key' (set layer segment key value (run ops)))
    as Hr3.
  { intros. rewrite Hraw3, Hraw1, Hrawd. by case_decide. }
  split_and!; try done.
  - intros segment'. rewrite !set_get by done.
    apply resolve_congr; try done.
    intros layer'. rewrite Hl2, Hl1, Hls. tauto.
  - intros segment'. rewrite !set_get by done.
    apply resolve_congr; try done.
    intros layer'. rewrite Hl3, Hl1, Hld. tauto.
Qed.

(** X9.  [delete] undoes [set]: after [set] and then [delete] of the same
    layer, segment and key, the raw store has every entry it had before
    the two calls except the deleted one, and [get] of the key returns for
    every segment what it returns after [delete] alone. *)
Theorem delete_undoes_set ops layer segment key value :
  let st := run ops in
  let st2 := delete layer segment key (set layer segment key value st) in
  (∀ layer' segment' key',
     rawGet layer' segment' key' st2 =
     if decide (layer' = layer ∧ segment' = segment ∧ key' = key)
     then None else rawGet layer' segment' key' st) ∧
  (∀ segment',
     (get segment' key st2).1 =
     (get segment' key (delete layer segment key st)).1).
Proof.
  destruct (run_wf ops) as [Hwf _]. cbv zeta.
  destruct (set_spec layer segment key value (run ops) Hwf)
    as (Hwfs & _ & Hraws & _ & _ & Hls & _).
  destruct (delete_spec layer segment key (run ops) Hwf)
    as (Hwfd & _ & Hrawd & _ & _ & Hld & _).
  destruct (delete_spec layer segment key _ Hwfs)
    as (Hwf2 & _ & Hraw2 & _ & _ & Hl2 & _).
  assert (∀ layer' segment' key',
            rawGet layer' segment' key'
              (delete layer segment key (set layer segment key value (run ops)))
            = if decide (layer' = layer ∧ segment' = segment ∧ key' = key)
              then None else rawGet layer' segment' key' (run ops)) as Hr.
  { intros. rewrite Hraw2, Hraws. by case_decide. }
  split; [done|].
  intros segment'. rewrite !delete_get by done.
  apply resolve_congr; try done.
  - intros layer'. rewrite Hl2, Hld, Hls. tauto.
  - intros. by rewrite Hr, Hrawd.
  - intros. by rewrite Hr, Hrawd.
Qed.

(** X10.  Deleting the only value of a key makes it absent: when no other
    layer holds a value of the key for the segment, and no layer holds one
    for the monolithic segment, then after [delete] the segment's [get]
    returns nothing and its [has] is false. *)
Theorem delete_last_value ops layer segment key :
  (∀ layer', layer' ≠ layer → rawGet layer' segment key (run ops) = None) →
  (segment ≠ monolithic →
   ∀ layer', rawGet layer' monolithic key (run ops) = None) →
  let st' := delete layer segment key (run ops) in
  (get segment key st').1 = None ∧ (has segment key st').1 = false.
Proof.
  intros Hseg Hmono. destruct (run_wf ops) as [Hwf _].
  destruct (delete_spec layer segment key (run ops) Hwf)
    as (Hwf' & _ & Hraw & Hres & _ & _ & Hin & _).
  cbv zeta.
  assert (resolve segment key (delete layer segment key (run ops)) = None)
    as Hnone.
  { rewrite <- wf_resolve by done.
    assert (∀ layer', rawGet layer' segment key
                        (delete layer segment key (run ops)) = None) as Hs.
    { intros layer'. rewrite Hraw. case_decide as Heq; [done|].
      apply Hseg. intros ->. by apply Heq. }
    apply resolveLayers_None; [done|].
    destruct (decide (segment = monolithic)) as [->|Hne]; [done|].
    intros layer'. rewrite Hraw. rewrite decide_False by naive_solver.
    by apply Hmono. }
  split.
  - by rewrite delete_get.
  - rewrite has_eq, Hres, Hnone by done. apply bool_decide_eq_false. by intros [].
Qed.

(** X11.  A mutation of one key leaves the reads of every other key
    alone, for every segment the store knew before the call: [get] and
    [has] return after [set] or [delete] what they returned before. *)
Theorem other_keys_untouched ops layer segment key value segment' key' :
  segment' ∈ _segments (run ops) → key' ≠ key →
  let st := run ops in
  let same st' :=
    (get segment' key' st').1 = (get segment' key' st).1 ∧
    (has segment' key' st').1 = (has segment' key' st).1 in
  same (set layer segment key value st) ∧ same (delete layer segment key st).
Proof.
  intros Hs Hk. destruct (run_wf ops) as [Hwf Hcached]. cbv zeta.
  destruct (set_spec layer segment key value (run ops) Hwf)
    as (_ & Hcached1 & _ & _ & Hother1 & _ & _ & Hmono1).
  destruct (delete_spec layer segment key (run ops) Hwf)
    as (_ & Hcached2 & _ & _ & Hother2 & _ & _ & Hmono2).
  rewrite !has_eq, !get_known by auto.
  by rewrite Hother1, Hother2.
Qed.

(** X12.  Clearing a segment leaves the reads of the other segments
    alone, on any state: [has] of another segment is unchanged, and so is
    its [get] unless the monolithic segment is the one cleared and the
    other segment has no cache map of its own. *)
Theorem deleteSegmentData_other_segments segment segment' key st :
  segment' ≠ segment →
  let st' := deleteSegmentData segment st in
  (has segment' key st').1 = (has segment' key st).1 ∧
  (segment ≠ monolithic ∨ is_Some (_topLevelCache st !! segment') →
   (get segment' key st').1 = (get segment' key st).1).
Proof.
  intros Hne. cbv zeta. unfold has, get, deleteSegmentData. simpl.
  rewrite lookup_delete_ne by congruence.
  destruct (_topLevelCache st !! segment') as [sData|]; [done|].
  split; [done|]. intros [Hm|[? [=]]]. rewrite lookup_delete_ne by done.
  by destruct (_topLevelCache st !! monolithic).
Qed.

(** X13.  Clearing two segments gives the same store in either order, on
    any state. *)
Theorem deleteSegmentData_comm segment1 segment2 st :
  deleteSegmentData segment1 (deleteSegmentData segment2 st) =
  deleteSegmentData segment2 (deleteSegmentData segment1 st).
Proof.
  unfold deleteSegmentData. simpl. f_equal.
  - apply map_eq. intros layer. rewrite !lookup_fmap.
    destruct (_data st !! layer) as [lData|]; simpl; [|done].
    f_equal. apply delete_delete.
  - unfold Set_delete. induction (_segments st) as [|segment segments IH];
      [done|].
    rewrite !filter_cons.
    destruct (decide (segment ≠ segment2)), (decide (segment ≠ segment1));
      rewrite ?filter_cons, ?decide_True, ?decide_False by done;
      by rewrite IH.
  - apply delete_delete.
Qed.

(** X14.  A segment that no operation has named reads the monolithic
    segment: its [get] returns what [get] of the monolithic segment
    returns, and its [has] is false. *)
Theorem unwritten_segment_reads_monolithic ops segment key :
  segment ≠ monolithic →
  Forall (λ op, op_segment op ≠ segment) ops →
  let st := run ops in
  (get segment key st).1 = (get monolithic key st).1 ∧
  (has segment key st).1 = false.
Proof.
  intros Hne Hops. destruct (run_wf ops) as [Hwf _]. cbv zeta.
  assert (segment ∉ _segments (run ops)) as Hs.
  { intros [?|(op & Hin & Hop)]%run_segments; [done|].
    rewrite Forall_forall in Hops. by apply (Hops op). }
  pose proof (wf_unknown_cache segment _ Hwf Hs) as Hc.
  unfold get, has. rewrite Hc. split; [|done].
  by destruct (_topLevelCache (run ops) !! monolithic).
Qed.

(** X15.  Wherever [has] is true, on any state, [get] returns a value, the
    segment's own cache entry. *)
Theorem has_then_get segment key st :
  (has segment key st).1 = true →
  is_Some (get segment key st).1 ∧
  (get segment key st).1 = cacheGet segment key st.
Proof.
  unfold has, get, cacheGet.
  destruct (_topLevelCache st !! segment) as [sData|]; simpl; [|done].
  by intros ?%bool_decide_eq_true.
Qed.

(** X17.  As long as the monolithic segment has not been cleared, a write
    on a layer strictly below one on which a segment has its own value of
    the key, to that segment or to any other, does not change what [get]
    returns for the segment. *)
Theorem shadowed_write ops layer segmentA segmentB key value layer' :
  Forall (λ op, op ≠ OpDeleteSegmentData monolithic) ops →
  (layer < layer')%Z →
  is_Some (rawGet layer' segmentB key (run ops)) →
  (get segmentB key (set layer segmentA key value (run ops))).1 =
  (get segmentB key (run ops)).1.
Proof.
  intros Hops. destruct (run_wf ops) as [Hwf Hcached].
  by apply settled_shadowed_write, run_settled.
Qed.

(** X19.  [delete] is idempotent: a second [delete] of the same layer,
    segment and key leaves the store exactly as the first one left it. *)
Theorem delete_twice ops layer segment key :
  delete layer segment key (delete layer segment key (run ops)) =
  delete layer segment key (run ops).
Proof. apply delete_again, run_wf. Qed.

(** X20.  [set] is idempotent: writing the same value to the same layer,
    segment and key a second time leaves the store exactly as the first
    write left it. *)
Theorem set_twice ops layer segment key value :
  set layer segment key value (set layer segment key value (run ops)) =
  set layer segment key value (run ops).
Proof. apply set_again, run_wf. Qed.

(** X21.  [_updateCache], run on a store reached by any sequence of
    operations, changes no raw store entry and no layer, leaves the cache
    entries of the other keys alone, makes [get] of the key return the
    resolved value for every segment, and changes nothing when run
    again. *)
Theorem updateCache_refreshes ops key :
  let st := run ops in
  let st' := _updateCache key st in
  (∀ layer segment key',
     rawGet layer segment key' st' = rawGet layer segment key' st) ∧
  _layers st' = _layers st ∧
  (∀ segment key', key' ≠ key →
     cacheGet segment key' st' = cacheGet segment key' st) ∧
  (∀ segment, (get segment key st').1 = resolve segment key st) ∧
  _updateCache key st' = st'.
Proof.
  destruct (run_wf ops) as [Hwf _]. cbv zeta.
  destruct (updateCache_resolved key (run ops) Hwf)
    as (Hwf' & Hcached' & Hraw & Hl & _ & Hres & Hother).
  split_and!; try done.
  - intros segment. rewrite (get_resolved key _ Hwf' Hcached' Hres).
    apply resolve_congr; try done. intros layer. by rewrite Hl.
  - by apply updateCache_again.
Qed.

(** X22.  A cleared segment reads the monolithic segment again, on any
    state: after [deleteSegmentData] of a segment other than the
    monolithic one, [get] of the segment returns what [get] of the
    monolithic segment returned before the call. *)
Theorem cleared_segment_reads_monolithic segment key st :
  segment ≠ monolithic →
  (get segment key (deleteSegmentData segment st)).1 =
  (get monolithic key st).1.
Proof.
  intros Hne. unfold get, deleteSegmentData. simpl.
  rewrite lookup_delete_eq, lookup_delete_ne by done.
  by destruct (_topLevelCache st !! monolithic).
Qed.

(** X23.  How the layer list changes: [set] and [delete] on a layer that
    is in the list leave it as it is, on a new layer they give the sorted
    list with the layer added; [deleteSegmentData] leaves it as it is. *)
Theorem layers_after_step ops layer segment key value :
  let st := run ops in
  let added :=
    if decide (layer ∈ _layers st) then _layers st
    else sort reverseNumeric (layer :: _layers st) in
  _layers (set layer segment key value st) = added ∧
  _layers (delete layer segment key st) = added ∧
  _layers (deleteSegmentData segment st) = _layers st.
Proof.
  destruct (run_wf ops) as [Hwf _]. cbv zeta.
  assert (∀ st', wf st' →
            (∀ layer', layer' ∈ _layers st' ↔
                       layer' = layer ∨ layer' ∈ _layers (run ops)) →
            _layers st' =
            if decide (layer ∈ _layers (run ops)) then _layers (run ops)
            else sort reverseNumeric (layer :: _layers (run ops))) as Hadd.
  { intros st' Hwf' Hl.
    pose proof (descending_NoDup _ (wf_layers_sorted _ Hwf)) as Hnd.
    case_decide as Hin.
    - rewrite (descending_sort (_layers (run ops)) (_layers (run ops)));
        [|apply Hwf|done|done].
      apply descending_sort; [apply Hwf'|done|].
      intros layer'. rewrite Hl. split; [|by right]. by intros [->|].
    - apply descending_sort; [apply Hwf'|by constructor|].
      intros layer'. by rewrite Hl, elem_of_cons. }
  split_and!; [| |done].
  - by destruct (set_spec layer segment key value (run ops) Hwf)
      as (? & _ & _ & _ & _ & ? & _); apply Hadd.
  - by destruct (delete_spec layer segment key (run ops) Hwf)
      as (? & _ & _ & _ & _ & ? & _); apply Hadd.
Qed.

(** X24.  A key set on the monolithic segment is present in every segment
    the store knows: after the write, [has] is true and [get] returns a
    value for each of them. *)
Theorem monolithic_write_present_everywhere ops layer key value segment :
  segment ∈ _segments (run ops) →
  let st' := set layer monolithic key value (run ops) in
  (has segment key st').1 = true ∧ is_Some (get segment key st').1.
Proof.
  intros Hs. destruct (run_wf ops) as [Hwf _].
  destruct (set_spec layer monolithic key value (run ops) Hwf)
    as (Hwf' & _ & Hraw & Hres & _ & Hl & _ & Hmono).
  cbv zeta.
  assert (is_Some (resolve segment key
                     (set layer monolithic key value (run ops)))) as Hsome.
  { rewrite <- wf_resolve by done.
    apply (resolveLayers_is_Some_monolithic _ layer); [apply Hl; by left|].
    rewrite Hraw. by rewrite decide_True. }
  split.
  - apply has_cacheGet. rewrite Hres by auto. done.
  - by rewrite set_get.
Qed.

End extras.

(** ** The further properties at concrete stores *)

(** X6: the only value of the key is on layer 0, the write is on layer 1. *)
Lemma set_then_get_top_witness :
  let ops : list (Op string) := [OpSet 0 (named "S") "k" "lo"] in
  (∀ layer', (1 < layer')%Z →
     rawGet layer' (named "S") "k" (run ops) = None ∧
     rawGet layer' monolithic "k" (run ops) = None) ∧
  (get (named "S") "k" (set 1 (named "S") "k" "hi" (run ops))).1 = Some "hi".
Proof.
  cbv zeta.
  assert (∀ layer', (1 < layer')%Z →
            rawGet layer' (named "S") "k" (run [OpSet 0 (named "S") "k" "lo"])
              = None ∧
            rawGet layer' monolithic "k" (run [OpSet 0 (named "S") "k" "lo"])
              = None) as Habove.
  { intros layer' Hlt.
    assert (layer' ∉ _layers (run [OpSet 0 (named "S") "k" "lo"])) as Hl.
    { assert (_layers (run [OpSet 0 (named "S") "k" "lo"]) = [0%Z]) as ->
        by (by vm_compute).
      intros Hin. apply list_elem_of_singleton in Hin. lia. }
    split; apply wf_no_layer_rawGet; try done; apply run_wf. }
  split; [exact Habove|].
  apply (set_then_get_top [OpSet 0 (named "S") "k" "lo"] 1 (named "S") "k" "hi").
  exact Habove.
Defined.

(** X7: the segment is known through another key when the monolithic
    segment is written. *)
Lemma monolithic_write_read_by_segments_witness :
  let ops : list (Op string) := [OpSet 0 (named "S") "k2" "w"] in
  (∀ layer', (0 ≤ layer')%Z → rawGet layer' (named "S") "k" (run ops) = None) ∧
  (∀ layer', (0 < layer')%Z → rawGet layer' monolithic "k" (run ops) = None) ∧
  (get (named "S") "k" (set 0 monolithic "k" "v" (run ops))).1 = Some "v".
Proof.
  cbv zeta.
  assert (∀ layer' segment, layer' ≠ 0%Z →
            rawGet layer' segment "k" (run [OpSet 0 (named "S") "k2" "w"]) = None)
    as Hother.
  { intros layer' segment Hne. apply wf_no_layer_rawGet; [apply run_wf|].
    assert (_layers (run [OpSet 0 (named "S") "k2" "w"]) = [0%Z]) as ->
      by (by vm_compute).
    intros Hin. by apply list_elem_of_singleton in Hin. }
  assert (∀ layer', (0 ≤ layer')%Z →
            rawGet layer' (named "S") "k" (run [OpSet 0 (named "S") "k2" "w"])
              = None) as Hseg.
  { intros layer' _. destruct (decide (layer' = 0%Z)) as [->|Hne];
      [by vm_compute|by apply Hother]. }
  assert (∀ layer', (0 < layer')%Z →
            rawGet layer' monolithic "k" (run [OpSet 0 (named "S") "k2" "w"])
              = None) as Hmono.
  { intros layer' Hlt. apply Hother. lia. }
  split_and!; [exact Hseg|exact Hmono|].
  exact (monolithic_write_read_by_segments
           [OpSet 0 (named "S") "k2" "w"] 0 "k" "v" (named "S") Hseg Hmono).
Defined.

(** X10: the segment's value on layer 0 is the only value of the key. *)
Lemma delete_last_value_witness :
  let ops : list (Op string) := [OpSet 0 (named "S") "k" "v"] in
  (∀ layer', layer' ≠ 0%Z → rawGet layer' (named "S") "k" (run ops) = None) ∧
  (named "S" ≠ monolithic →
   ∀ layer', rawGet layer' monolithic "k" (run ops) = None) ∧
  (get (named "S") "k" (delete 0 (named "S") "k" (run ops))).1 = None ∧
  (has (named "S") "k" (delete 0 (named "S") "k" (run ops))).1 = false.
Proof.
  cbv zeta.
  assert (∀ layer' segment, layer' ≠ 0%Z →
            rawGet layer' segment "k" (run [OpSet 0 (named "S") "k" "v"]) = None)
    as Hother.
  { intros layer' segment Hne. apply wf_no_layer_rawGet; [apply run_wf|].
    assert (_layers (run [OpSet 0 (named "S") "k" "v"]) = [0%Z]) as ->
      by (by vm_compute).
    intros Hin. by apply list_elem_of_singleton in Hin. }
  assert (named "S" ≠ monolithic →
          ∀ layer', rawGet layer' monolithic "k"
                      (run [OpSet 0 (named "S") "k" "v"]) = None) as Hmono.
  { intros _ layer'. destruct (decide (layer' = 0%Z)) as [->|Hne];
      [by vm_compute|by apply Hother]. }
  split_and!; [intros; by apply Hother|exact Hmono|..];
    apply (delete_last_value [OpSet 0 (named "S") "k" "v"] 0 (named "S") "k");
    try exact Hmono; intros; by apply Hother.
Defined.

(** X11: a second key is written and then deleted. *)
Lemma other_keys_untouched_witness :
  let st : Core string := run [OpSet 0 (named "S") "k" "v"] in
  named "S" ∈ _segments st ∧ "k" ≠ "k2" ∧
  (get (named "S") "k" (set 0 (named "S") "k2" "w" st)).1 =
    (get (named "S") "k" st).1 ∧
  (has (named "S") "k" (delete 0 (named "S") "k2" st)).1 =
    (has (named "S") "k" st).1.
Proof.
  cbv zeta.
  assert (named "S" ∈ _segments (run [OpSet 0 (named "S") "k" "v"])) as Hin.
  { assert (_segments (run [OpSet 0 (named "S") "k" "v"]) = [named "S"]) as ->
      by (by vm_compute).
    by apply list_elem_of_singleton. }
  assert ("k" ≠ "k2") as Hne by discriminate.
  split_and!; [exact Hin|exact Hne|..];
    apply (other_keys_untouched [OpSet 0 (named "S") "k" "v"]
             0 (named "S") "k2" "w" (named "S") "k" Hin Hne).
Defined.

(** X12: another segment is cleared. *)
Lemma deleteSegmentData_other_segments_witness :
  let st : Core string :=
    run [OpSet 0 (named "S") "k" "v"; OpSet 0 (named "T") "k" "w"] in
  named "S" ≠ named "T" ∧
  (has (named "S") "k" (deleteSegmentData (named "T") st)).1 =
    (has (named "S") "k" st).1.
Proof.
  cbv zeta.
  assert (named "S" ≠ named "T") as Hne by discriminate.
  split; [exact Hne|].
  apply (deleteSegmentData_other_segments (named "T") (named "S") "k" _ Hne).
Defined.

(** X14: only the monolithic segment has been written. *)
Lemma unwritten_segment_reads_monolithic_witness :
  let ops : list (Op string) := [OpSet 0 monolithic "k" "v"] in
  named "S" ≠ monolithic ∧
  Forall (λ op, op_segment op ≠ named "S") ops ∧
  (get (named "S") "k" (run ops)).1 = (get monolithic "k" (run ops)).1 ∧
  (has (named "S") "k" (run ops)).1 = false.
Proof.
  cbv zeta.
  assert (named "S" ≠ monolithic) as Hne by discriminate.
  assert (Forall (λ op : Op string, op_segment op ≠ named "S")
            [OpSet 0 monolithic "k" "v"]) as Hops
    by (repeat constructor; discriminate).
  split_and!; [exact Hne|exact Hops|..];
    apply (unwritten_segment_reads_monolithic
             [OpSet 0 monolithic "k" "v"] (named "S") "k" Hne Hops).
Defined.

(** X15: the segment has a value of its own. *)
Lemma has_then_get_witness :
  let st : Core string := run [OpSet 0 (named "S") "k" "v"] in
  (has (named "S") "k" st).1 = true ∧
  is_Some (get (named "S") "k" st).1.
Proof.
  cbv zeta.
  assert ((has (named "S") "k" (run [OpSet 0 (named "S") "k" "v"])).1 = true)
    as Hhas by (by vm_compute).
  split; [exact Hhas|].
  apply (has_then_get (named "S") "k" _ Hhas).
Defined.

(** X16: segment B has its value on layer 0, segment A is written there. *)
Lemma segment_isolation_witness :
  let ops : list (Op string) := [OpSet 0 (named "B") "k" "b"] in
  Forall (λ op, op ≠ OpDeleteSegmentData monolithic) ops ∧
  named "A" ≠ named "B" ∧ (0 ≤ 0)%Z ∧
  is_Some (rawGet 0 (named "B") "k" (run ops)) ∧
  (get (named "B") "k" (set 0 (named "A") "k" "v" (run ops))).1 =
    (get (named "B") "k" (run ops)).1.
Proof.
  cbv zeta.
  assert (Forall (λ op : Op string, op ≠ OpDeleteSegmentData monolithic)
            [OpSet 0 (named "B") "k" "b"]) as Hops
    by (repeat constructor; discriminate).
  assert (named "A" ≠ named "B") as Hne by discriminate.
  assert (is_Some (rawGet 0 (named "B") "k" (run [OpSet 0 (named "B") "k" "b"])))
    as Hown by (exists "b"; by vm_compute).
  split_and!; [exact Hops|exact Hne|lia|exact Hown|].
  apply (segment_isolation [OpSet 0 (named "B") "k" "b"]
           0 (named "A") (named "B") "k" "v" 0 Hops Hne); [lia|exact Hown].
Defined.

(** X17: the segment has its value on layer 1 and is written on layer 0. *)
Lemma shadowed_write_witness :
  let ops : list (Op string) := [OpSet 1 (named "B") "k" "hi"] in
  Forall (λ op, op ≠ OpDeleteSegmentData monolithic) ops ∧
  (0 < 1)%Z ∧
  is_Some (rawGet 1 (named "B") "k" (run ops)) ∧
  (get (named "B") "k" (set 0 (named "B") "k" "lo" (run ops))).1 =
    (get (named "B") "k" (run ops)).1.
Proof.
  cbv zeta.
  assert (Forall (λ op : Op string, op ≠ OpDeleteSegmentData monolithic)
            [OpSet 1 (named "B") "k" "hi"]) as Hops
    by (repeat constructor; discriminate).
  assert (is_Some (rawGet 1 (named "B") "k" (run [OpSet 1 (named "B") "k" "hi"])))
    as Hown by (exists "hi"; by vm_compute).
  split_and!; [exact Hops|lia|exact Hown|].
  apply (shadowed_write [OpSet 1 (named "B") "k" "hi"]
           0 (named "B") (named "B") "k" "lo" 1 Hops); [lia|exact Hown].
Defined.

(** X18: the store of C2, where the second case applies. *)
Lemma get_resolved_or_unpopulated_witness :
  Forall (λ op, op ≠ OpDeleteSegmentData monolithic) segment_written_later ∧
  let st := run segment_written_later in
  ((get (named "S") "k" st).1 = resolve (named "S") "k" st ∨
   ((get (named "S") "k" st).1 = None ∧ named "S" ∈ _segments st ∧
    ∀ layer, rawGet layer (named "S") "k" st = None)).
Proof.
  assert (Forall (λ op : Op string, op ≠ OpDeleteSegmentData monolithic)
            segment_written_later) as Hops
    by (repeat constructor; discriminate).
  split; [exact Hops|].
  apply (get_resolved_or_unpopulated segment_written_later (named "S") "k" Hops).
Defined.

(** X22: a segment with a value of its own is cleared. *)
Lemma cleared_segment_reads_monolithic_witness :
  let st : Core string :=
    run [OpSet 0 monolithic "k" "m"; OpSet 0 (named "S") "k" "v"] in
  named "S" ≠ monolithic ∧
  (get (named "S") "k" (deleteSegmentData (named "S") st)).1 =
    (get monolithic "k" st).1.
Proof.
  cbv zeta.
  assert (named "S" ≠ monolithic) as Hne by discriminate.
  split; [exact Hne|].
  apply (cleared_segment_reads_monolithic (named "S") "k" _ Hne).
Defined.

(** X24: the segment is known through another key. *)
Lemma monolithic_write_present_everywhere_witness :
  let ops : list (Op string) := [OpSet 0 (named "S") "k2" "w"] in
  named "S" ∈ _segments (run ops) ∧
  (has (named "S") "k" (set 1 monolithic "k" "v" (run ops))).1 = true ∧
  is_Some (get (named "S") "k" (set 1 monolithic "k" "v" (run ops))).1.
Proof.
  cbv zeta.
  assert (named "S" ∈ _segments (run [OpSet 0 (named "S") "k2" "w"])) as Hin.
  { assert (_segments (run [OpSet 0 (named "S") "k2" "w"]) = [named "S"]) as ->
      by (by vm_compute).
    by apply list_elem_of_singleton. }
  split; [exact Hin|].
  apply (monolithic_write_present_everywhere
           [OpSet 0 (named "S") "k2" "w"] 1 "k" "v" (named "S") Hin).
Defined.
